(** * keploy: the TLS capture wire format and the stream reassembly contract

    The repository's hook headers declare the shape of the events that the
    kernel-side probes hand to user space:

    - [pkg/hooks/headers/openssl_tracer_types.h]: [MAX_DATA_SIZE],
      [enum ssl_data_event_type], [struct ssl_data_event_t], [struct ssl_data];
    - [pkg/hooks/headers/tls_message.h]: [MAX_DATA], [PERF_BUFFER_NAME],
      [struct TLS_MESSAGE];
    - [pkg/hooks/headers/bpf_core_read.h]: [enum bpf_field_info_kind].

    Part I embeds these declarations: every enum and struct is kept as the
    list of declarators the header writes, next to the Rocq type of its
    values, and the C rules that give enumerators their values and objects
    their sizes are functions over those lists.

    Part II is the per-stream reassembly buffer and the per-stream part of
    the reassembly engine.  No source file implements them; they are
    modelled from the written specification, and every such definition
    says so.

    Part III proves what the specification says about the wire format,
    Part IV what it says about reassembly: ordering, gap surfacing,
    duplicate suppression and bounded memory. *)

From Stdlib Require Import ZArith NArith List Bool String Ascii Lia Arith.
From Stdlib Require Import Sorting.Sorted Sorting.Permutation.
From Stdlib Require Strings.Byte.
Import ListNotations.

Local Open Scope string_scope.

(* ================================================================== *)
(** * Part I: the wire declarations *)
(* ================================================================== *)

Module Wire.

(** ** C types, as far as the three headers use them *)

Inductive ctype : Type :=
| Cchar                              (* char *)
| Cint                               (* int *)
| Cuint32                            (* uint32_t *)
| Cuint64                            (* uint64_t *)
| Cenum (tag : string)               (* enum tag *)
| Carray (elt : ctype) (len : Z)     (* elt [len] *)
| Cptr (elt : ctype).                (* elt * *)

Inductive signedness := Signed | Unsigned.

(** Width and signedness of the integer types.  [int] is 32 bits wide and
    signed on the BPF target and on every Linux ABI the hooks are built
    for; [uint32_t] and [uint64_t] are exact-width by definition.  The
    signedness of plain [char] is left to the ABI, so [char] has no entry. *)
Definition int_repr (t : ctype) : option (signedness * Z) :=
  match t with
  | Cint => Some (Signed, 32%Z)
  | Cuint32 => Some (Unsigned, 32%Z)
  | Cuint64 => Some (Unsigned, 64%Z)
  | _ => None
  end.

(** [sizeof], in bytes (an enum is represented as an [int], a pointer has
    8 bytes). *)
Fixpoint sizeof (t : ctype) : Z :=
  match t with
  | Cchar => 1
  | Cint => 4
  | Cuint32 => 4
  | Cuint64 => 8
  | Cenum _ => 4
  | Carray elt len => len * sizeof elt
  | Cptr _ => 8
  end%Z.

(** The values an integer type can hold. *)
Definition in_range (t : ctype) (v : Z) : Prop :=
  match int_repr t with
  | Some (Signed, w) => (- 2 ^ (w - 1) <= v < 2 ^ (w - 1))%Z
  | Some (Unsigned, w) => (0 <= v < 2 ^ w)%Z
  | None => False
  end.

(** ** Enumerations *)

(** An enum declaration is its list of enumerators, each with the value
    the header writes for it, if it writes one. *)
Definition enum_decl := list (string * option Z).

(** The C rule: an enumerator without [= value] gets the value of the
    previous one plus one, the first one gets 0. *)
Fixpoint enum_values_from (next : Z) (d : enum_decl) : list (string * Z) :=
  match d with
  | [] => []
  | (name, v) :: d' =>
      let x := match v with Some x => x | None => next end in
      (name, x) :: enum_values_from (x + 1)%Z d'
  end.

Definition enum_values (d : enum_decl) : list (string * Z) :=
  enum_values_from 0%Z d.

Fixpoint assoc {A : Type} (k : string) (l : list (string * A)) : option A :=
  match l with
  | [] => None
  | (k', v) :: l' => if String.eqb k k' then Some v else assoc k l'
  end.

(** ** openssl_tracer_types.h *)

(** [#define MAX_DATA_SIZE 8192] *)
Definition MAX_DATA_SIZE : Z := 8192.

(** [enum ssl_data_event_type { kSSLRead, kSSLWrite };] *)
Definition ssl_data_event_type_decl : enum_decl :=
  [("kSSLRead", None); ("kSSLWrite", None)].

Inductive ssl_data_event_type : Type := kSSLRead | kSSLWrite.

Definition ssl_data_event_type_name (d : ssl_data_event_type) : string :=
  match d with
  | kSSLRead => "kSSLRead"
  | kSSLWrite => "kSSLWrite"
  end.

(** The number the compiler gives an enumerator, read off the declaration. *)
Definition ssl_data_event_type_value (d : ssl_data_event_type) : option Z :=
  assoc (ssl_data_event_type_name d) (enum_values ssl_data_event_type_decl).

(** A struct declaration is its list of members, in order. *)
Definition struct_decl := list (string * ctype).

Definition field_type (s : struct_decl) (name : string) : option ctype :=
  assoc name s.

Definition field_names (s : struct_decl) : list string := map fst s.

(** [struct ssl_data_event_t] *)
Definition ssl_data_event_t_decl : struct_decl :=
  [ ("type", Cenum "ssl_data_event_type");
    ("timestamp_ns", Cuint64);
    ("pid", Cuint32);
    ("tid", Cint);
    ("data", Carray Cchar MAX_DATA_SIZE);
    ("data_len", Cint) ].

(** [struct ssl_data] *)
Definition ssl_data_decl : struct_decl :=
  [ ("buf", Cptr Cchar) ].

(** A value of [struct ssl_data_event_t]. *)
Record ssl_data_event_t : Type := {
  type : ssl_data_event_type;
  timestamp_ns : Z;
  pid : Z;
  tid : Z;
  data : list Byte.byte;
  data_len : Z
}.

(** A value inhabits the struct when every member is a value of its
    declared type. *)
Definition type_of (s : struct_decl) (name : string) : ctype :=
  match field_type s name with
  | Some t => t
  | None => Cptr Cchar
  end.

Definition array_len (t : ctype) : Z :=
  match t with
  | Carray _ len => len
  | _ => 0%Z
  end.

Record ssl_data_event_wf (e : ssl_data_event_t) : Prop := {
  wf_timestamp_ns : in_range (type_of ssl_data_event_t_decl "timestamp_ns") (timestamp_ns e);
  wf_pid : in_range (type_of ssl_data_event_t_decl "pid") (pid e);
  wf_tid : in_range (type_of ssl_data_event_t_decl "tid") (tid e);
  wf_data : Z.of_nat (List.length (data e)) = array_len (type_of ssl_data_event_t_decl "data");
  wf_data_len : in_range (type_of ssl_data_event_t_decl "data_len") (data_len e)
}.

(** ** tls_message.h *)

(** [#define MAX_DATA 8192] *)
Definition MAX_DATA : Z := 8192.

(** [#define PERF_BUFFER_NAME "TLS_DATA_PERF_OUTPUT"] *)
Definition PERF_BUFFER_NAME : string := "TLS_DATA_PERF_OUTPUT".

(** [struct TLS_MESSAGE] *)
Definition TLS_MESSAGE_decl : struct_decl :=
  [ ("elapsed", Cint);
    ("ptid", Cint);
    ("message", Carray Cchar MAX_DATA) ].

Record TLS_MESSAGE : Type := {
  elapsed : Z;
  ptid : Z;
  message : list Byte.byte
}.

Record TLS_MESSAGE_wf (m : TLS_MESSAGE) : Prop := {
  wf_elapsed : in_range (type_of TLS_MESSAGE_decl "elapsed") (elapsed m);
  wf_ptid : in_range (type_of TLS_MESSAGE_decl "ptid") (ptid m);
  wf_message : Z.of_nat (List.length (message m)) = array_len (type_of TLS_MESSAGE_decl "message")
}.

(** ** bpf_core_read.h *)

(** [enum bpf_field_info_kind] *)
Definition bpf_field_info_kind_decl : enum_decl :=
  [ ("BPF_FIELD_BYTE_OFFSET", Some 0%Z);
    ("BPF_FIELD_BYTE_SIZE", Some 1%Z);
    ("BPF_FIELD_EXISTS", Some 2%Z);
    ("BPF_FIELD_SIGNED", Some 3%Z);
    ("BPF_FIELD_LSHIFT_U64", Some 4%Z);
    ("BPF_FIELD_RSHIFT_U64", Some 5%Z) ].

Inductive bpf_field_info_kind : Type :=
| BPF_FIELD_BYTE_OFFSET
| BPF_FIELD_BYTE_SIZE
| BPF_FIELD_EXISTS
| BPF_FIELD_SIGNED
| BPF_FIELD_LSHIFT_U64
| BPF_FIELD_RSHIFT_U64.

Definition bpf_field_info_kind_name (k : bpf_field_info_kind) : string :=
  match k with
  | BPF_FIELD_BYTE_OFFSET => "BPF_FIELD_BYTE_OFFSET"
  | BPF_FIELD_BYTE_SIZE => "BPF_FIELD_BYTE_SIZE"
  | BPF_FIELD_EXISTS => "BPF_FIELD_EXISTS"
  | BPF_FIELD_SIGNED => "BPF_FIELD_SIGNED"
  | BPF_FIELD_LSHIFT_U64 => "BPF_FIELD_LSHIFT_U64"
  | BPF_FIELD_RSHIFT_U64 => "BPF_FIELD_RSHIFT_U64"
  end.

Definition bpf_field_info_kind_value (k : bpf_field_info_kind) : option Z :=
  assoc (bpf_field_info_kind_name k) (enum_values bpf_field_info_kind_decl).

(** ** The capture events on the wire *)

(** Modelled from the spec: the bytes of an event that carry the chunk
    are the first [data_len] bytes of [data] (the code that fills the
    structure is no part of the headers).  A negative [data_len] leaves
    no byte. *)
Definition payload (e : ssl_data_event_t) : list Byte.byte :=
  firstn (Z.to_nat (data_len e)) (data e).

(** The structures in which a capture event travels to user space. *)
Definition wire_event_structs : list (string * struct_decl) :=
  [ ("ssl_data_event_t", ssl_data_event_t_decl);
    ("TLS_MESSAGE", TLS_MESSAGE_decl) ].

(** What a member of an event structure tells about the event. *)
Inductive tag : Type := Identity | Direction | Timestamp | Chunk.

Definition is_integer (t : ctype) : bool :=
  match int_repr t with
  | Some _ => true
  | None => false
  end.

(** A member carries the process or thread identity when it is one of the
    integers [pid], [tid], [ptid]; the direction when it has the type
    [enum ssl_data_event_type]; the time when it is one of the integers
    [timestamp_ns], [elapsed]; the chunk when it is an array of [char]. *)
Definition carries (k : tag) (f : string * ctype) : bool :=
  let (name, t) := f in
  match k with
  | Identity =>
      is_integer t && (String.eqb name "pid" || String.eqb name "tid" || String.eqb name "ptid")
  | Direction =>
      match t with
      | Cenum e => String.eqb e "ssl_data_event_type"
      | _ => false
      end
  | Timestamp =>
      is_integer t && (String.eqb name "timestamp_ns" || String.eqb name "elapsed")
  | Chunk =>
      match t with
      | Carray Cchar _ => true
      | _ => false
      end
  end.

Definition struct_carries (k : tag) (s : struct_decl) : bool :=
  existsb (carries k) s.

(** The claim that every structure a capture event travels in has a
    member [is_truncated]. *)
Definition carries_truncation_flag (s : struct_decl) : Prop :=
  exists t, field_type s "is_truncated" = Some t.

(** A well-formed event whose buffer is full: 8192 bytes, all valid. *)
Definition full_event : ssl_data_event_t :=
  {| type := kSSLWrite;
     timestamp_ns := 1;
     pid := 1;
     tid := 1;
     data := repeat Byte.x00 (Z.to_nat MAX_DATA_SIZE);
     data_len := MAX_DATA_SIZE |}.

(** ** Reading an enumerator back from its number *)

(** The first enumerator that has the value [v]. *)
Fixpoint name_of_value (v : Z) (l : list (string * Z)) : option string :=
  match l with
  | [] => None
  | (name, x) :: l' => if Z.eqb x v then Some name else name_of_value v l'
  end.

Definition ssl_data_event_type_of_name (name : string) : option ssl_data_event_type :=
  if String.eqb name "kSSLRead" then Some kSSLRead
  else if String.eqb name "kSSLWrite" then Some kSSLWrite
  else None.

(** The member of [enum ssl_data_event_type] that the number [v] stands
    for, as the reader of the [type] member of an event has to find it. *)
Definition ssl_data_event_type_of_value (v : Z) : option ssl_data_event_type :=
  match name_of_value v (enum_values ssl_data_event_type_decl) with
  | Some name => ssl_data_event_type_of_name name
  | None => None
  end.

Definition bpf_field_info_kind_of_name (name : string) : option bpf_field_info_kind :=
  if String.eqb name "BPF_FIELD_BYTE_OFFSET" then Some BPF_FIELD_BYTE_OFFSET
  else if String.eqb name "BPF_FIELD_BYTE_SIZE" then Some BPF_FIELD_BYTE_SIZE
  else if String.eqb name "BPF_FIELD_EXISTS" then Some BPF_FIELD_EXISTS
  else if String.eqb name "BPF_FIELD_SIGNED" then Some BPF_FIELD_SIGNED
  else if String.eqb name "BPF_FIELD_LSHIFT_U64" then Some BPF_FIELD_LSHIFT_U64
  else if String.eqb name "BPF_FIELD_RSHIFT_U64" then Some BPF_FIELD_RSHIFT_U64
  else None.

Definition bpf_field_info_kind_of_value (v : Z) : option bpf_field_info_kind :=
  match name_of_value v (enum_values bpf_field_info_kind_decl) with
  | Some name => bpf_field_info_kind_of_name name
  | None => None
  end.

(** The declaration with the written values left out. *)
Definition implicit (d : enum_decl) : enum_decl :=
  map (fun nv => (fst nv, @None Z)) d.

(** ** The layout of a structure *)

(** Alignment in bytes: every scalar is aligned to its size, an array to
    its element (the rule of the BPF target and of the 64-bit Linux ABIs). *)
Fixpoint alignof (t : ctype) : Z :=
  match t with
  | Cchar => 1
  | Cint => 4
  | Cuint32 => 4
  | Cuint64 => 8
  | Cenum _ => 4
  | Carray elt _ => alignof elt
  | Cptr _ => 8
  end%Z.

(** The first multiple of [a] at or after [off]. *)
Definition align_up (off a : Z) : Z := ((off + a - 1) / a * a)%Z.

(** A member with the offset it is placed at. *)
Record placed : Type := {
  pl_name : string;
  pl_type : ctype;
  pl_offset : Z
}.

Definition pl_end (m : placed) : Z := (pl_offset m + sizeof (pl_type m))%Z.

(** The C rule: the members are placed in the order of the declaration,
    each at the first offset after the one before it that its alignment
    allows. *)
Fixpoint layout_from (off : Z) (s : struct_decl) : list placed :=
  match s with
  | [] => []
  | (name, t) :: s' =>
      let o := align_up off (alignof t) in
      {| pl_name := name; pl_type := t; pl_offset := o |}
        :: layout_from (o + sizeof t)%Z s'
  end.

Definition layout (s : struct_decl) : list placed := layout_from 0%Z s.

(** The offset after the last member. *)
Fixpoint end_from (off : Z) (s : struct_decl) : Z :=
  match s with
  | [] => off
  | (_, t) :: s' => end_from (align_up off (alignof t) + sizeof t)%Z s'
  end.

(** A structure is aligned as its most aligned member, and its size is
    rounded up to that alignment. *)
Definition struct_align (s : struct_decl) : Z :=
  fold_right (fun f a => Z.max (alignof (snd f)) a) 1%Z s.

Definition struct_size (s : struct_decl) : Z :=
  align_up (end_from 0%Z s) (struct_align s).

Fixpoint offsetof (name : string) (l : list placed) : option Z :=
  match l with
  | [] => None
  | m :: l' => if String.eqb name (pl_name m) then Some (pl_offset m) else offsetof name l'
  end.

(** The bytes of a structure that belong to no member. *)
Definition padding (s : struct_decl) : Z :=
  (struct_size s - fold_right (fun f a => sizeof (snd f) + a) 0 s)%Z.

(** No array has a negative length. *)
Fixpoint type_ok (t : ctype) : Prop :=
  match t with
  | Carray elt len => (0 <= len)%Z /\ type_ok elt
  | _ => True
  end.

Definition struct_ok (s : struct_decl) : Prop :=
  Forall (fun f => type_ok (snd f)) s.

End Wire.
(* ================================================================== *)
(** * Part II: the per-stream reassembly buffer and its engine *)
(* ================================================================== *)

Module Reassembly.

Local Open Scope list_scope.
Local Open Scope N_scope.

(** [MAX_CHUNK]: the chunk limit of the capture transport, the size of
    the wire structure's data buffer. *)
Definition MAX_CHUNK : nat := Z.to_nat Wire.MAX_DATA_SIZE.

(** Modelled from the spec: the Capture Event value object of the data
    model (no source file declares it; the wire structure it is read from
    is [Wire.ssl_data_event_t]).  [timestamp] is the event's position in
    its stream; the arrival order that breaks ties is the order in which
    events reach the buffer. *)
Record capture_event : Type := {
  process_id : N;
  thread_id : Z;
  direction : Wire.ssl_data_event_type;
  timestamp : N;
  payload : list Byte.byte;
  is_truncated : bool
}.

(** Modelled from the spec: the Capture Event read from a wire event,
    with the field names normalised as in the interface table.  The wire
    structure has no member to read [is_truncated] from; the caller
    supplies it. *)
Definition of_wire (truncated : bool) (e : Wire.ssl_data_event_t) : capture_event :=
  {| process_id := Z.to_N (Wire.pid e);
     thread_id := Wire.tid e;
     direction := Wire.type e;
     timestamp := Z.to_N (Wire.timestamp_ns e);
     payload := Wire.payload e;
     is_truncated := truncated |}.

(** Modelled from the spec: the recognised configuration options. *)
Record config : Type := {
  idle_eviction_timeout : N;
  gap_timeout : N;
  max_reassembly_span_chunks : nat;
  max_buffered_bytes_per_stream : nat;
  max_buffered_bytes_global : nat;
  max_queued_segments_per_stream : nat
}.

(** A stored chunk: the event and the clock reading at which it was
    stored, from which its age is measured. *)
Record chunk : Type := {
  ck_event : capture_event;
  ck_received : N
}.

Definition ck_ts (c : chunk) : N := timestamp (ck_event c).
Definition ck_payload (c : chunk) : list Byte.byte := payload (ck_event c).

(** Modelled from the spec: the state of a Per-Stream Reassembly Buffer.
    [pending] holds the stored chunks in arrival order, so that the chunks
    of one position (one timestamp) are met in arrival order; [expected]
    is the expected next position; [delivered] holds the
    (timestamp, payload-hash) pairs of the chunks handed over already: the
    bytes of a segment are gone once it is consumed, the pairs stay
    present, so that a retransmitted chunk is known as a duplicate also
    when the original has left the buffer. *)
Record buffer : Type := {
  pending : list chunk;
  expected : N;
  delivered : list (N * N);
  dropped_duplicates : nat
}.

Definition fresh (start : N) : buffer :=
  {| pending := []; expected := start; delivered := []; dropped_duplicates := 0 |}.

(** What the sink is handed: an ordered segment, kept as the chunks it
    concatenates so that their timestamps stay visible, or a gap marker
    for the positions from [first_lost] up to, not including, [next_kept]. *)
Inductive output : Type :=
| Segment (parts : list chunk)
| GapMarker (first_lost next_kept : N).

Definition segment_bytes (parts : list chunk) : list Byte.byte :=
  List.concat (map ck_payload parts).

(** The chunks of an output sequence, in the order the sink receives them. *)
Definition emitted (out : list output) : list chunk :=
  flat_map (fun o => match o with
                     | Segment parts => parts
                     | GapMarker _ _ => []
                     end) out.

(** Modelled from the spec: the sink contract
    [accept(stream_key, direction, ordered_bytes, gap_before)], for one
    stream: each segment with the flag that a gap marker precedes it. *)
Fixpoint to_sink (gap_before : bool) (out : list output) : list (list Byte.byte * bool) :=
  match out with
  | [] => []
  | GapMarker _ _ :: out' => to_sink true out'
  | Segment parts :: out' => (segment_bytes parts, gap_before) :: to_sink false out'
  end.

Definition buffered_bytes (l : list chunk) : nat :=
  list_sum (map (fun c => List.length (ck_payload c)) l).

Section Buffer.

(** The payload hash is not fixed by the specification: it is a parameter. *)
Variable payload_hash : list Byte.byte -> N.

Variable cfg : config.

(** The (timestamp, payload-hash) pair of an event, and the pair under
    which a chunk is stored. *)
Definition key_of (e : capture_event) : N * N := (timestamp e, payload_hash (payload e)).
Definition key (c : chunk) : N * N := (ck_ts c, payload_hash (ck_payload c)).

(** The chunk has the (timestamp, payload-hash) pair of the event. *)
Definition same_key (e : capture_event) (c : chunk) : bool :=
  (timestamp e =? ck_ts c) && (payload_hash (payload e) =? payload_hash (ck_payload c)).

Definition key_eqb (k1 k2 : N * N) : bool :=
  (fst k1 =? fst k2) && (snd k1 =? snd k2).

(** Modelled from the spec: the (timestamp, payload-hash) pair of an
    event is already present.  A stored chunk has it, or a chunk that was
    handed over: a retransmission follows its original, which the drain
    attempt of its own [ingest] may have handed over by then. *)
Definition present (e : capture_event) (b : buffer) : bool :=
  existsb (same_key e) (pending b) || existsb (key_eqb (key_of e)) (delivered b).

(** Modelled from the spec: [insert(event)] stores the chunk keyed by its
    position (timestamp, ties in arrival order) and fails silently,
    counting a dropped duplicate, when an identical
    (timestamp, payload-hash) pair is already present. *)
Definition insert (now : N) (e : capture_event) (b : buffer) : buffer :=
  if present e b
  then {| pending := pending b;
          expected := expected b;
          delivered := delivered b;
          dropped_duplicates := S (dropped_duplicates b) |}
  else {| pending := pending b ++ [{| ck_event := e; ck_received := now |}];
          expected := expected b;
          delivered := delivered b;
          dropped_duplicates := dropped_duplicates b |}.

(** The chunks stored for position [p], in arrival order. *)
Definition at_position (p : N) (l : list chunk) : list chunk :=
  filter (fun c => ck_ts c =? p) l.

(** The window from position [p]: the chunks at or after it. *)
Definition from_position (p : N) (l : list chunk) : list chunk :=
  filter (fun c => p <=? ck_ts c) l.

(** The scan from position [p] forward while contiguous chunks are
    available: the chunks of the run, and the first position that has no
    chunk.  Each step takes at least one chunk, so [length l] steps are
    enough (lemma [contiguous_run_stops]). *)
Fixpoint contiguous_run (fuel : nat) (p : N) (l : list chunk) : list chunk * N :=
  match fuel with
  | O => ([], p)
  | S fuel' =>
      match at_position p l with
      | [] => ([], p)
      | here => let (rest, p') := contiguous_run fuel' (N.succ p) l in
                (here ++ rest, p')
      end
  end.

(** The clock reading at which the oldest of the chunks was stored. *)
Fixpoint oldest_received (l : list chunk) : option N :=
  match l with
  | [] => None
  | c :: l' => match oldest_received l' with
               | None => Some (ck_received c)
               | Some r => Some (N.min (ck_received c) r)
               end
  end.

(** The smallest position that has a chunk. *)
Fixpoint first_position (l : list chunk) : option N :=
  match l with
  | [] => None
  | c :: l' => match first_position l' with
               | None => Some (ck_ts c)
               | Some p => Some (N.min (ck_ts c) p)
               end
  end.

(** The oldest pending chunk has aged beyond the gap-timeout ([l] is what
    is pending behind the hole). *)
Definition aged (now : N) (l : list chunk) : bool :=
  match oldest_received l with
  | None => false
  | Some r => gap_timeout cfg <? now - r
  end.

(** The maximal suffix of truncated chunks of a run: a logical write that
    is not finished yet. *)
Fixpoint trailing_truncated (run : list chunk) : list chunk :=
  match run with
  | [] => []
  | c :: run' =>
      let t := trailing_truncated run' in
      if is_truncated (ck_event c) && (List.length t =? List.length run')%nat
      then c :: t
      else t
  end.

(** Modelled from the spec: truncation handling.  A run of truncated
    chunks with contiguous timestamps is one logical write; while the write
    is unfinished the run is no segment boundary, so the drain holds it
    back from the position of its first chunk, unless it already spans
    [max_reassembly_span_chunks] chunks.  [p1] is the position after the
    run; the result is the position from which the run is held back. *)
Definition held_from (span : nat) (run : list chunk) (p1 : N) : N :=
  match trailing_truncated run with
  | [] => p1
  | c :: t => if (List.length (c :: t) <? span)%nat then ck_ts c else p1
  end.

(** Nothing is held back. *)
Definition hold_nothing (run : list chunk) (p1 : N) : N := p1.

Definition segment (run : list chunk) : list output :=
  match run with
  | [] => []
  | _ => [Segment run]
  end.

(** One drain cycle over the window [l] from position [p]: the contiguous
    run is found; if the position after it is a hole, newer chunks exist
    and [timed_out] says the wait is over, the run becomes a segment, a gap
    marker is emitted and the scan goes on past the hole; otherwise the
    cycle ends with the part of the run that [hold] does not hold back as
    its last segment.  The result is the output, the new expected position
    and the chunks that stay.  A step after a gap marker starts on a stored
    chunk, so [S (length l)] steps are enough (lemma [drain_loop_fuel]). *)
Fixpoint drain_loop (timed_out : list chunk -> bool) (hold : list chunk -> N -> N)
         (fuel : nat) (p : N) (l : list chunk) : list output * N * list chunk :=
  match fuel with
  | O => ([], p, l)
  | S fuel' =>
      let (run, p1) := contiguous_run (List.length l) p l in
      let l1 := from_position p1 l in
      let past_hole := match first_position l1 with
                       | Some p2 => if timed_out l1 then Some p2 else None
                       | None => None
                       end in
      match past_hole with
      | Some p2 =>
          let '(out, p3, l3) := drain_loop timed_out hold fuel' p2 l1 in
          (segment run ++ GapMarker p1 p2 :: out, p3, l3)
      | None =>
          let h := hold run p1 in
          (segment (filter (fun c => ck_ts c <? h) run), h, from_position h l)
      end
  end.

(** The chunks whose timestamp lies behind position [p], in arrival order. *)
Definition behind (p : N) (l : list chunk) : list chunk :=
  filter (fun c => ck_ts c <? p) l.

(** Modelled from the spec: a drain of the buffer, with the rule for the
    end of the wait and the rule for holding a run back as parameters
    ([drain_ready] and the flush differ in nothing else).  Inside the
    window, from the expected position on, the chunks go by timestamp,
    ties by arrival order ([drain_loop]):
    B (t = 2) delivered before A (t = 1) is handed over as A, B.  A stored
    chunk whose timestamp lies behind the expected position arrived when
    the drain had gone past its position; it cannot be put in front of
    what the sink has consumed, and only a duplicate is ever dropped.  Its timestamp is resolved as a tie with the position handed
    over last, by arrival order: the chunk is handed over at once, as a
    segment in front of what the scan from the expected position finds,
    and the expected position does not move for it.  The pairs of the
    chunks handed over stay present. *)
Definition drain_with (timed_out : list chunk -> bool) (hold : list chunk -> N -> N)
           (b : buffer) : list output * buffer :=
  let late := behind (expected b) (pending b) in
  let l := from_position (expected b) (pending b) in
  let '(out, p, l') := drain_loop timed_out hold (S (List.length l)) (expected b) l in
  (segment late ++ out,
   {| pending := l';
      expected := p;
      delivered := delivered b ++ map key (late ++ emitted out);
      dropped_duplicates := dropped_duplicates b |}).

(** Modelled from the spec: [drain_ready()] scans from the expected next
    position forward, returns the contiguous chunks as one ordered segment
    and advances the expected position; when the next expected chunk is
    missing, newer chunks exist and the oldest pending chunk has aged
    beyond the gap-timeout, it emits a gap marker and advances past the
    hole.  Equal timestamps are ties and go by arrival order; so does a
    timestamp that runs behind what was handed over already (clock skew,
    non-monotonic timestamps): nothing but a duplicate is dropped. *)
Definition drain_ready (now : N) (b : buffer) : list output * buffer :=
  drain_with (aged now) (held_from (max_reassembly_span_chunks cfg)) b.

(** Modelled from the spec: the flush at eviction.  All remaining data is
    emitted, as a last segment if it is complete, with gap markers where it
    is not contiguous; no timeout is waited for and nothing is held back. *)
Definition flush (b : buffer) : list output * buffer :=
  drain_with (fun _ => true) hold_nothing b.

(** Modelled from the spec: the life of one logical stream in the engine.
    [Live] stands for the states Open, Draining and Idle, which differ
    only in what the last drain attempt yielded; [Evicted] is terminal and
    the buffer is released. *)
Inductive stream : Type :=
| Live (b : buffer)
| Evicted.

Definition well_formed (e : capture_event) : bool :=
  (List.length (payload e) <=? MAX_CHUNK)%nat.

(** Modelled from the spec: [ingest(event)] for the resolved stream.  A
    malformed event (payload longer than [MAX_CHUNK]) is rejected; it is
    counted in an engine-wide metric that is no part of the stream.
    Otherwise the event is inserted and a drain attempt follows; if what
    stays buffered exceeds [max_buffered_bytes_per_stream], the stream is
    flushed, with a gap marker where the data is not contiguous, and
    evicted.  An event for a key whose stream is evicted opens a new
    stream; it is no event of the evicted one. *)
Definition ingest (now : N) (e : capture_event) (s : stream) : list output * stream :=
  match s with
  | Evicted => ([], Evicted)
  | Live b =>
      if well_formed e
      then let (out, b1) := drain_ready now (insert now e b) in
           if (max_buffered_bytes_per_stream cfg <? buffered_bytes (pending b1))%nat
           then (out ++ fst (flush b1), Evicted)
           else (out, Live b1)
      else ([], Live b)
  end.

(** A drain attempt outside [ingest] (the clock has moved on). *)
Definition drain (now : N) (s : stream) : list output * stream :=
  match s with
  | Evicted => ([], Evicted)
  | Live b => let (out, b1) := drain_ready now b in (out, Live b1)
  end.

(** Modelled from the spec: eviction (idle timeout, explicit close, or
    reclaiming space): the remaining data is flushed and the buffer is
    released; evicting an evicted stream is a no-op. *)
Definition evict (s : stream) : list output * stream :=
  match s with
  | Evicted => ([], Evicted)
  | Live b => (fst (flush b), Evicted)
  end.

(** What can happen to a stream, and a run of such operations with the
    output the sink receives. *)
Inductive op : Type :=
| Ingest (now : N) (e : capture_event)
| Drain (now : N)
| Evict.

Definition step (o : op) (s : stream) : list output * stream :=
  match o with
  | Ingest now e => ingest now e s
  | Drain now => drain now s
  | Evict => evict s
  end.

Fixpoint run (ops : list op) (s : stream) : list output * stream :=
  match ops with
  | [] => ([], s)
  | o :: ops' => let (out, s1) := step o s in
                 let (out', s2) := run ops' s1 in
                 (out ++ out', s2)
  end.

Definition stream_bytes (s : stream) : nat :=
  match s with
  | Live b => buffered_bytes (pending b)
  | Evicted => O
  end.

Definition stream_pending (s : stream) : list chunk :=
  match s with
  | Live b => pending b
  | Evicted => []
  end.

(** The chunk an operation stores: the chunk of an event that is well
    formed, reaches the stream while it lives and is no duplicate. *)
Definition stored_by (o : op) (s : stream) : list chunk :=
  match o, s with
  | Ingest now e, Live b =>
      if well_formed e && negb (present e b)
      then [{| ck_event := e; ck_received := now |}]
      else []
  | _, _ => []
  end.

(** The chunks a run stores. *)
Fixpoint accepted (ops : list op) (s : stream) : list chunk :=
  match ops with
  | [] => []
  | o :: ops' => stored_by o s ++ accepted ops' (snd (step o s))
  end.

(** In the run [ops] of the stream [s], the chunk [c2] arrives when the
    chunk [c1] has been handed to the sink already. *)
Definition arrived_after (ops : list op) (s : stream) (c1 c2 : chunk) : Prop :=
  exists ops1 ops2,
    ops = ops1 ++ Ingest (ck_received c2) (ck_event c2) :: ops2 /\
    In c1 (emitted (fst (run ops1 s))).

(** ** The vocabulary of the statements *)

(** The chunks are in position order. *)
Definition ordered (l : list chunk) : Prop :=
  StronglySorted (fun a b => ck_ts a <= ck_ts b) l.

(** All chunks are at or after position [p]. *)
Definition window (p : N) (l : list chunk) : Prop :=
  forall c, In c l -> p <= ck_ts c.

(** What a drain cycle needs of the rule that holds a run back: the run
    is held from the position after it, that is not at all, or from the
    position of one of its chunks. *)
Definition hold_ok (hold : list chunk -> N -> N) : Prop :=
  forall run p1, hold run p1 = p1 \/ exists c, In c run /\ hold run p1 = ck_ts c.

(** The condition under which a drain cycle cannot run out of fuel: a
    cycle that starts on a stored chunk needs [length l] steps, any other
    one step more. *)
Definition enough (fuel : nat) (p : N) (l : list chunk) : Prop :=
  (at_position p l <> [] /\ (List.length l <= fuel)%nat) \/ (List.length l < fuel)%nat.

(** The first thing in the output, if there is anything, is a segment
    that holds a chunk of position [p]. *)
Definition segment_first_at (p : N) (out : list output) : Prop :=
  match out with
  | [] => True
  | Segment seg :: _ => exists c, In c seg /\ ck_ts c = p
  | GapMarker _ _ :: _ => False
  end.

(** A chunk is stored at the expected position. *)
Definition head_ready (b : buffer) : Prop :=
  at_position (expected b) (pending b) <> [].

(** No two chunks have the same (timestamp, payload-hash) pair. *)
Definition distinct_keys (l : list chunk) : Prop := NoDup (map key l).

(** What holds of a stream and of the chunks [E] it has handed over
    since its creation: no (timestamp, payload-hash) pair occurs twice
    among them, their pairs are the pairs the buffer keeps as delivered,
    and no pair is both delivered and stored, or stored twice. *)
Definition stream_inv (s : stream) (E : list chunk) : Prop :=
  distinct_keys E /\
  match s with
  | Live b => delivered b = map key E /\ NoDup (delivered b ++ map key (pending b))
  | Evicted => True
  end.

(** Between two operations nothing is stored behind the expected
    position, and everything handed over lies behind it. *)
Definition stream_ahead (s : stream) (E : list chunk) : Prop :=
  match s with
  | Live b => window (expected b) (pending b) /\ forall c, In c E -> ck_ts c < expected b
  | Evicted => True
  end.

(** Some chunk of the list has position [p]. *)
Definition has_position (p : N) (l : list chunk) : Prop :=
  exists c, In c l /\ ck_ts c = p.

(** No gap marker comes before the segment that holds a chunk of
    position [p]: what comes before that segment, if anything, are
    segments. *)
Fixpoint marker_free_until (p : N) (out : list output) : Prop :=
  match out with
  | [] => True
  | Segment seg :: out' => has_position p seg \/ marker_free_until p out'
  | GapMarker _ _ :: _ => False
  end.

(** A segment that holds a chunk of position [p] comes, and no gap marker
    before it. *)
Fixpoint segment_reached (p : N) (out : list output) : Prop :=
  match out with
  | [] => False
  | Segment seg :: out' => has_position p seg \/ segment_reached p out'
  | GapMarker _ _ :: _ => False
  end.

(** The chunks are in timestamp order up to late arrivals: of two chunks
    the one handed over first has the smaller or the same timestamp,
    unless the other one arrived when it had been handed over already. *)
Definition ordered_up_to_late_arrivals (ops : list op) (s : stream) (l : list chunk) : Prop :=
  StronglySorted (fun c1 c2 => ck_ts c1 <= ck_ts c2 \/ arrived_after ops s c1 c2) l.

(** A dropped duplicate changes nothing but the metric. *)
Definition count_duplicate (b : buffer) : buffer :=
  {| pending := pending b;
     expected := expected b;
     delivered := delivered b;
     dropped_duplicates := S (dropped_duplicates b) |}.

(** The chunk holds the event's timestamp and bytes. *)
Definition carries_event (e : capture_event) (c : chunk) : Prop :=
  ck_ts c = timestamp e /\ ck_payload c = payload e.

(** The event's (timestamp, payload) occurs exactly once among the chunks. *)
Definition occurs_once (e : capture_event) (l : list chunk) : Prop :=
  exists before c after,
    l = before ++ c :: after /\ carries_event e c /\
    forall c', In c' (before ++ after) -> ~ carries_event e c'.

(** Two streams that differ at most in their metrics. *)
Definition same_data (s1 s2 : stream) : Prop :=
  match s1, s2 with
  | Live b1, Live b2 =>
      pending b1 = pending b2 /\ expected b1 = expected b2 /\ delivered b1 = delivered b2
  | Evicted, Evicted => True
  | _, _ => False
  end.

End Buffer.

(** ** Concrete streams *)

(** A payload hash to run the model with: the bytes read as one number in
    base 256 behind a leading 1, which tells any two payloads apart. *)
Definition number_hash (p : list Byte.byte) : N :=
  fold_left (fun acc x => 256 * acc + N.of_nat (Byte.to_nat x)) p 1.

(** A configuration with a gap-timeout of 50 and at most [ceiling]
    buffered bytes per stream. *)
Definition config_with (ceiling : nat) : config :=
  {| idle_eviction_timeout := 1000;
     gap_timeout := 50;
     max_reassembly_span_chunks := 16;
     max_buffered_bytes_per_stream := ceiling;
     max_buffered_bytes_global := 64 * ceiling;
     max_queued_segments_per_stream := 8 |}.

Definition roomy : config := config_with (16 * MAX_CHUNK).
Definition tight : config := config_with 4.

(** A write event of thread 1 of process 1, at position [t]. *)
Definition event_at (t : N) (truncated : bool) (bytes : list Byte.byte) : capture_event :=
  {| process_id := 1;
     thread_id := 1%Z;
     direction := Wire.kSSLWrite;
     timestamp := t;
     payload := bytes;
     is_truncated := truncated |}.

Definition text_at (t : N) (s : string) : capture_event :=
  event_at t false (list_byte_of_string s).

(** What the sink sees of an output, as text. *)
Definition sink_text (out : list output) : list (string * bool) :=
  map (fun sg => (string_of_list_byte (fst sg), snd sg)) (to_sink false out).

Definition sink_lengths (out : list output) : list (N * bool) :=
  map (fun sg => (N.of_nat (List.length (fst sg)), snd sg)) (to_sink false out).

(** A buffer that expects position 1 and stores the chunks of positions 1
    and 3 since clock reading 0: position 2 is missing behind a stored run. *)
Definition waiting_buffer : buffer :=
  {| pending := [ {| ck_event := text_at 1 "aaa"; ck_received := 0 |};
                  {| ck_event := text_at 3 "ccc"; ck_received := 0 |} ];
     expected := 1;
     delivered := [];
     dropped_duplicates := 0 |}.

End Reassembly.
(* ================================================================== *)
(** * Part III: the wire declarations, verified *)
(* ================================================================== *)

Module WireFacts.

Import Wire.

Local Open Scope Z_scope.

Lemma payload_length_le (e : ssl_data_event_t) :
  (List.length (payload e) <= List.length (data e))%nat.
Proof.
  unfold payload. rewrite length_firstn. apply Nat.le_min_r.
Qed.

Lemma payload_prefix (e : ssl_data_event_t) :
  exists rest, data e = (payload e ++ rest)%list.
Proof.
  exists (skipn (Z.to_nat (data_len e)) (data e)).
  unfold payload. symmetry. apply firstn_skipn.
Qed.

Lemma wf_data_length (e : ssl_data_event_t) :
  ssl_data_event_wf e -> Z.of_nat (List.length (data e)) = 8192.
Proof.
  intros H. exact (wf_data e H).
Qed.

Lemma full_event_wf : ssl_data_event_wf full_event.
Proof.
  constructor; try (cbv [in_range type_of field_type assoc ssl_data_event_t_decl
                         String.eqb Ascii.eqb Bool.eqb int_repr full_event
                         timestamp_ns pid tid data_len MAX_DATA_SIZE]; lia).
  vm_compute. reflexivity.
Defined.

(** C5.  The chunk limit is 8192 bytes: both size macros are 8192, both
    wire structures declare their data buffer as [char [8192]], the
    payload of every well-formed event has at most 8192 bytes, and an
    event with a payload of exactly 8192 bytes exists. *)
Theorem max_payload_size_8192 :
  MAX_DATA_SIZE = 8192 /\
  MAX_DATA = 8192 /\
  field_type ssl_data_event_t_decl "data" = Some (Carray Cchar 8192) /\
  field_type TLS_MESSAGE_decl "message" = Some (Carray Cchar 8192) /\
  (forall e, ssl_data_event_wf e -> Z.of_nat (List.length (payload e)) <= 8192) /\
  (forall m, TLS_MESSAGE_wf m -> Z.of_nat (List.length (message m)) = 8192) /\
  (exists e, ssl_data_event_wf e /\ Z.of_nat (List.length (payload e)) = 8192).
Proof.
  repeat split; try reflexivity.
  - intros e He. pose proof (payload_length_le e) as Hle.
    pose proof (wf_data_length e He) as Hlen. lia.
  - intros m Hm. pose proof (wf_message m Hm) as Hlen.
    exact Hlen.
  - exists full_event. split; [exact full_event_wf|].
    vm_compute. reflexivity.
Qed.

Lemma max_payload_size_8192_witness :
  Z.of_nat (List.length (payload full_event)) <= 8192.
Proof.
  apply (proj1 (proj2 (proj2 (proj2 (proj2 max_payload_size_8192))))).
  exact full_event_wf.
Defined.

(** C6.  [struct ssl_data_event_t] types the process id as an unsigned
    32-bit integer, the thread id as a signed 32-bit integer, the
    timestamp (in nanoseconds, [timestamp_ns]) as an unsigned 64-bit
    integer, the payload length as a signed 32-bit integer and the payload
    as a buffer of 8192 bytes; a well-formed event holds values of these
    ranges, and its payload is the first [data_len] bytes of the buffer. *)
Theorem ssl_data_event_field_types :
  (field_type ssl_data_event_t_decl "pid" = Some Cuint32 /\
   int_repr Cuint32 = Some (Unsigned, 32)) /\
  (field_type ssl_data_event_t_decl "tid" = Some Cint /\
   int_repr Cint = Some (Signed, 32)) /\
  (field_type ssl_data_event_t_decl "timestamp_ns" = Some Cuint64 /\
   int_repr Cuint64 = Some (Unsigned, 64)) /\
  (field_type ssl_data_event_t_decl "data_len" = Some Cint) /\
  (field_type ssl_data_event_t_decl "data" = Some (Carray Cchar 8192) /\
   sizeof (Carray Cchar 8192) = 8192) /\
  (forall e, ssl_data_event_wf e ->
     0 <= pid e < 2 ^ 32 /\
     - 2 ^ 31 <= tid e < 2 ^ 31 /\
     0 <= timestamp_ns e < 2 ^ 64 /\
     - 2 ^ 31 <= data_len e < 2 ^ 31 /\
     Z.of_nat (List.length (data e)) = 8192 /\
     (exists rest, data e = (payload e ++ rest)%list) /\
     (0 <= data_len e <= 8192 -> Z.of_nat (List.length (payload e)) = data_len e)).
Proof.
  do 5 (split; [repeat split; reflexivity|]).
  intros e He. pose proof (wf_data_length e He) as Hdata.
  destruct He as [Hts Hpid Htid _ Hlen].
  cbv [in_range type_of field_type assoc ssl_data_event_t_decl
       String.eqb Ascii.eqb Bool.eqb int_repr] in Hts, Hpid, Htid, Hlen.
  repeat split; try lia.
  - apply payload_prefix.
  - intros Hrange. unfold payload. rewrite length_firstn. lia.
Qed.

Lemma ssl_data_event_field_types_witness :
  0 <= pid full_event < 2 ^ 32 /\
  Z.of_nat (List.length (payload full_event)) = data_len full_event.
Proof.
  destruct ssl_data_event_field_types as (_ & _ & _ & _ & _ & H).
  destruct (H full_event full_event_wf) as (Hpid & _ & _ & _ & _ & _ & Hpay).
  split; [exact Hpid|]. apply Hpay. vm_compute. split; discriminate.
Defined.

(** C7.  [enum ssl_data_event_type] has exactly the two members
    [kSSLRead] and [kSSLWrite], numbered 0 and 1. *)
Theorem direction_enum_values :
  enum_values ssl_data_event_type_decl = [("kSSLRead", 0); ("kSSLWrite", 1)] /\
  (forall d : ssl_data_event_type, d = kSSLRead \/ d = kSSLWrite) /\
  kSSLRead <> kSSLWrite /\
  ssl_data_event_type_value kSSLRead = Some 0 /\
  ssl_data_event_type_value kSSLWrite = Some 1.
Proof.
  repeat split; try reflexivity.
  - intros d; destruct d; [left | right]; reflexivity.
  - discriminate.
Qed.




(** C9, refuted as stated: [struct TLS_MESSAGE] is one of the wire
    structures and none of its members carries a direction. *)
Lemma tls_message_has_no_direction :
  In ("TLS_MESSAGE", TLS_MESSAGE_decl) wire_event_structs /\
  struct_carries Direction TLS_MESSAGE_decl = false.
Proof.
  split; [right; left; reflexivity | reflexivity].
Qed.

(** C9, amended.  [struct ssl_data_event_t] has members for all four tags:
    identity ([pid], [tid]), direction ([type]), timestamp
    ([timestamp_ns]) and chunk ([data]).  [struct TLS_MESSAGE] has members
    for identity ([ptid]), time ([elapsed]) and chunk ([message]), and none
    for the direction. *)
Theorem wire_event_tags :
  (forall k, struct_carries k ssl_data_event_t_decl = true) /\
  (forall k, struct_carries k TLS_MESSAGE_decl = negb match k with
                                                      | Direction => true
                                                      | _ => false
                                                      end) /\
  filter (carries Identity) ssl_data_event_t_decl = [("pid", Cuint32); ("tid", Cint)] /\
  filter (carries Direction) ssl_data_event_t_decl = [("type", Cenum "ssl_data_event_type")] /\
  filter (carries Timestamp) ssl_data_event_t_decl = [("timestamp_ns", Cuint64)] /\
  filter (carries Chunk) ssl_data_event_t_decl = [("data", Carray Cchar MAX_DATA_SIZE)] /\
  filter (carries Identity) TLS_MESSAGE_decl = [("ptid", Cint)] /\
  filter (carries Timestamp) TLS_MESSAGE_decl = [("elapsed", Cint)] /\
  filter (carries Chunk) TLS_MESSAGE_decl = [("message", Carray Cchar MAX_DATA)].
Proof.
  repeat split; try reflexivity; intros k; destruct k; reflexivity.
Qed.

(** C10.  [enum bpf_field_info_kind] has exactly six members, for the
    byte offset, the byte size, the existence, the signedness and the
    left and right 64-bit shift of a field, numbered 0 to 5 in this order. *)
Theorem bpf_field_info_kind_values :
  enum_values bpf_field_info_kind_decl =
    [ ("BPF_FIELD_BYTE_OFFSET", 0); ("BPF_FIELD_BYTE_SIZE", 1);
      ("BPF_FIELD_EXISTS", 2); ("BPF_FIELD_SIGNED", 3);
      ("BPF_FIELD_LSHIFT_U64", 4); ("BPF_FIELD_RSHIFT_U64", 5) ] /\
  map snd (enum_values bpf_field_info_kind_decl) = map Z.of_nat (seq 0 6) /\
  (forall k, k = BPF_FIELD_BYTE_OFFSET \/ k = BPF_FIELD_BYTE_SIZE \/
             k = BPF_FIELD_EXISTS \/ k = BPF_FIELD_SIGNED \/
             k = BPF_FIELD_LSHIFT_U64 \/ k = BPF_FIELD_RSHIFT_U64) /\
  map bpf_field_info_kind_value
      [ BPF_FIELD_BYTE_OFFSET; BPF_FIELD_BYTE_SIZE; BPF_FIELD_EXISTS;
        BPF_FIELD_SIGNED; BPF_FIELD_LSHIFT_U64; BPF_FIELD_RSHIFT_U64 ] =
    [Some 0; Some 1; Some 2; Some 3; Some 4; Some 5].
Proof.
  repeat split; try reflexivity.
  intros k; destruct k; tauto.
Qed.

(** ** Beyond the claims: numbering and decoding of the enumerations *)

Lemma enum_values_from_names (next : Z) (d : enum_decl) :
  map fst (enum_values_from next d) = map fst d.
Proof.
  revert next. induction d as [|[name v] d IH]; intros next; simpl; [reflexivity|].
  rewrite IH. reflexivity.
Qed.

Lemma enum_values_from_implicit (next : Z) (d : enum_decl) :
  map snd (enum_values_from next (implicit d)) =
  map (fun i => next + Z.of_nat i) (seq 0 (List.length d)).
Proof.
  revert next. induction d as [|[name v] d IH]; intros next; simpl; [reflexivity|].
  rewrite IH, <- seq_shift, map_map. f_equal; [lia|].
  apply map_ext. intros i. lia.
Qed.

Lemma seq_values_distinct (n : nat) : NoDup (map Z.of_nat (seq 0 n)).
Proof.
  apply NoDup_map_NoDup_ForallPairs; [|apply seq_NoDup].
  intros i j _ _ Hij. lia.
Qed.

(** X1.  The C numbering rule keeps the enumerators and their order.  A
    declaration that writes no values numbers its enumerators 0, 1, 2, ...
    by position, so no two of them share a number.  Both enumerations of
    the headers are numbered by position: [enum ssl_data_event_type]
    because it writes no values, [enum bpf_field_info_kind] because the
    values it writes are the positions. *)
Theorem enumerators_numbered_by_position :
  (forall d, map fst (enum_values d) = map fst d) /\
  (forall d, map snd (enum_values (implicit d)) = map Z.of_nat (seq 0 (List.length d))) /\
  (forall d, NoDup (map snd (enum_values (implicit d)))) /\
  enum_values ssl_data_event_type_decl = enum_values (implicit ssl_data_event_type_decl) /\
  enum_values bpf_field_info_kind_decl = enum_values (implicit bpf_field_info_kind_decl).
Proof.
  assert (Himp : forall d, map snd (enum_values (implicit d)) =
                           map Z.of_nat (seq 0 (List.length d))).
  { intros d. unfold enum_values. rewrite enum_values_from_implicit.
    apply map_ext. intros i. lia. }
  split; [|split; [|split; [|split]]].
  - intros d. apply enum_values_from_names.
  - exact Himp.
  - intros d. rewrite Himp. apply seq_values_distinct.
  - reflexivity.
  - reflexivity.
Qed.

(** The cases of reading the number [v] back: one for each enumerator
    whose number it is, and one for no enumerator. *)
Ltac read_back v :=
  cbv [ssl_data_event_type_of_value bpf_field_info_kind_of_value enum_values
       ssl_data_event_type_decl bpf_field_info_kind_decl
       enum_values_from name_of_value];
  repeat match goal with
         | |- context [Z.eqb ?x v] => destruct (Z.eqb_spec x v)
         end.

(** X2.  The number in the [type] member of an event and the direction
    determine each other: reading back the number of a direction gives
    that direction, a number is read as a direction only if it is that
    direction's number, and exactly the numbers other than 0 and 1 stand
    for no direction. *)
Theorem direction_value_round_trip :
  (forall d, exists v, ssl_data_event_type_value d = Some v /\
                       ssl_data_event_type_of_value v = Some d) /\
  (forall v d, ssl_data_event_type_of_value v = Some d ->
               ssl_data_event_type_value d = Some v) /\
  (forall v, ssl_data_event_type_of_value v = None <-> v < 0 \/ 1 < v).
Proof.
  split; [|split].
  - intros d; destruct d; eexists; split; reflexivity.
  - intros v d. read_back v; cbn; intros Hd; try discriminate;
      injection Hd as <-; subst v; reflexivity.
  - intros v. read_back v; cbn; (split; [try discriminate; lia | try reflexivity; lia]).
Qed.

(** X3.  The number passed to [__builtin_preserve_field_info] and the
    kind of field information determine each other: reading back the
    number of a kind gives that kind, a number is read as a kind only if
    it is that kind's number, and exactly the numbers outside 0 .. 5 stand
    for no kind. *)
Theorem field_info_kind_value_round_trip :
  (forall k, exists v, bpf_field_info_kind_value k = Some v /\
                       bpf_field_info_kind_of_value v = Some k) /\
  (forall v k, bpf_field_info_kind_of_value v = Some k ->
               bpf_field_info_kind_value k = Some v) /\
  (forall v, bpf_field_info_kind_of_value v = None <-> v < 0 \/ 5 < v).
Proof.
  split; [|split].
  - intros k; destruct k; eexists; split; reflexivity.
  - intros v k. read_back v; cbn; intros Hk; try discriminate;
      injection Hk as <-; subst v; reflexivity.
  - intros v. read_back v; cbn; (split; [try discriminate; lia | try reflexivity; lia]).
Qed.

(** ** Beyond the claims: the layout of the structures *)

Lemma alignof_pos (t : ctype) : 0 < alignof t.
Proof.
  induction t; simpl; lia.
Qed.

Lemma sizeof_nonneg (t : ctype) : type_ok t -> 0 <= sizeof t.
Proof.
  induction t; simpl; try lia. intros [Hlen Helt]. specialize (IHt Helt). nia.
Qed.

Lemma align_up_spec (off a : Z) :
  0 < a -> off <= align_up off a < off + a /\ align_up off a mod a = 0.
Proof.
  intros Ha. unfold align_up.
  pose proof (Z.div_mod (off + a - 1) a ltac:(lia)) as Hdm.
  pose proof (Z.mod_pos_bound (off + a - 1) a Ha) as Hmod.
  split; [nia|]. apply Z.mod_mul. lia.
Qed.

Lemma struct_align_pos (s : struct_decl) : 0 < struct_align s.
Proof.
  induction s as [|f s IH]; simpl; lia.
Qed.

Lemma layout_from_names (off : Z) (s : struct_decl) :
  map pl_name (layout_from off s) = field_names s /\
  map pl_type (layout_from off s) = map snd s.
Proof.
  revert off. induction s as [|[name t] s IH]; intros off; simpl; [split; reflexivity|].
  destruct (IH (align_up off (alignof t) + sizeof t)) as [-> ->]. split; reflexivity.
Qed.

Lemma end_from_le (off : Z) (s : struct_decl) :
  struct_ok s ->
  off + fold_right (fun f a => sizeof (snd f) + a) 0 s <= end_from off s.
Proof.
  revert off. induction s as [|[name t] s IH]; intros off Hok; simpl; [lia|].
  inversion Hok as [|f s' Ht Hs]; subst. simpl in Ht.
  specialize (IH (align_up off (alignof t) + sizeof t) Hs).
  pose proof (align_up_spec off (alignof t) (alignof_pos t)) as [Hup _].
  pose proof (sizeof_nonneg t Ht). lia.
Qed.

Lemma layout_from_spec (off : Z) (s : struct_decl) :
  struct_ok s ->
  Forall (fun m => off <= pl_offset m /\
                   pl_offset m mod alignof (pl_type m) = 0 /\
                   pl_end m <= end_from off s) (layout_from off s) /\
  StronglySorted (fun a b => pl_end a <= pl_offset b) (layout_from off s).
Proof.
  revert off. induction s as [|[name t] s IH]; intros off Hok; simpl.
  - split; constructor.
  - inversion Hok as [|f s' Ht Hs]; subst. simpl in Ht.
    pose proof (align_up_spec off (alignof t) (alignof_pos t)) as [Hup Hmod].
    pose proof (sizeof_nonneg t Ht) as Hsize.
    pose proof (end_from_le (align_up off (alignof t) + sizeof t) s Hs) as Hend.
    assert (Hsum : 0 <= fold_right (fun f a => sizeof (snd f) + a) 0 s).
    { clear - Hs. induction Hs as [|f s Hf Hs IHs]; simpl; [lia|].
      pose proof (sizeof_nonneg (snd f) Hf). lia. }
    destruct (IH (align_up off (alignof t) + sizeof t) Hs) as [Hall Hsorted].
    split.
    + constructor.
      * unfold pl_end. simpl. repeat split; try assumption; lia.
      * eapply Forall_impl; [|exact Hall]. simpl. intros m (H1 & H2 & H3).
        repeat split; try assumption. lia.
    + constructor; [assumption|].
      eapply Forall_impl; [|exact Hall]. simpl. intros m (H1 & _).
      unfold pl_end. simpl. lia.
Qed.

(** X4.  The layout rule places the members of any structure in the
    order of the declaration, each at a non-negative offset that is a
    multiple of its alignment, none overlapping a later one and all inside
    the size of the structure, which is a multiple of the alignment of the
    structure; the padding is never negative. *)
Theorem layout_sound (s : struct_decl) :
  struct_ok s ->
  map pl_name (layout s) = field_names s /\
  map pl_type (layout s) = map snd s /\
  Forall (fun m => 0 <= pl_offset m /\
                   pl_offset m mod alignof (pl_type m) = 0 /\
                   pl_end m <= struct_size s) (layout s) /\
  StronglySorted (fun a b => pl_end a <= pl_offset b) (layout s) /\
  struct_size s mod struct_align s = 0 /\
  0 <= padding s.
Proof.
  intros Hok. unfold layout.
  destruct (layout_from_names 0 s) as [Hnames Htypes].
  destruct (layout_from_spec 0 s Hok) as [Hall Hsorted].
  pose proof (align_up_spec (end_from 0 s) (struct_align s) (struct_align_pos s))
    as [Hup Hmod].
  pose proof (end_from_le 0 s Hok) as Hend.
  split; [assumption|]. split; [assumption|]. split; [|split; [assumption|split]].
  - eapply Forall_impl; [|exact Hall]. simpl. intros m (H1 & H2 & H3).
    unfold struct_size. repeat split; try assumption. lia.
  - exact Hmod.
  - unfold padding, struct_size. lia.
Qed.

Lemma wire_structs_ok :
  struct_ok ssl_data_event_t_decl /\ struct_ok TLS_MESSAGE_decl /\ struct_ok ssl_data_decl.
Proof.
  unfold struct_ok, ssl_data_event_t_decl, TLS_MESSAGE_decl, ssl_data_decl,
    MAX_DATA_SIZE, MAX_DATA.
  repeat split;
    repeat (apply Forall_cons; [simpl; first [exact I | split; [lia | exact I]]|]);
    apply Forall_nil.
Defined.

Lemma layout_sound_witness :
  StronglySorted (fun a b => pl_end a <= pl_offset b) (layout ssl_data_event_t_decl) /\
  0 <= padding ssl_data_event_t_decl.
Proof.
  destruct (layout_sound ssl_data_event_t_decl (proj1 wire_structs_ok))
    as (_ & _ & _ & Hsorted & _ & Hpad).
  split; assumption.
Defined.

(** X5.  The layout of the three structures of the headers.
    [struct ssl_data_event_t] has 8224 bytes, 8 of them padding: [type] at
    0, [timestamp_ns] at 8, [pid] at 16, [tid] at 20, [data] at 24 and
    [data_len] at 8216; the payload of a well-formed event ends before
    [data_len] begins.  [struct TLS_MESSAGE] has 8200 bytes without
    padding: [elapsed] at 0, [ptid] at 4, [message] at 8.  [struct ssl_data]
    is one pointer of 8 bytes and has none of the members an event
    structure has. *)
Theorem wire_struct_layout :
  (map (fun m => (pl_name m, pl_offset m)) (layout ssl_data_event_t_decl) =
     [("type", 0); ("timestamp_ns", 8); ("pid", 16); ("tid", 20);
      ("data", 24); ("data_len", 8216)] /\
   struct_size ssl_data_event_t_decl = 8224 /\
   padding ssl_data_event_t_decl = 8) /\
  (forall e off_data off_len,
     ssl_data_event_wf e ->
     offsetof "data" (layout ssl_data_event_t_decl) = Some off_data ->
     offsetof "data_len" (layout ssl_data_event_t_decl) = Some off_len ->
     off_data + Z.of_nat (List.length (payload e)) <= off_len) /\
  (map (fun m => (pl_name m, pl_offset m)) (layout TLS_MESSAGE_decl) =
     [("elapsed", 0); ("ptid", 4); ("message", 8)] /\
   struct_size TLS_MESSAGE_decl = 8200 /\
   padding TLS_MESSAGE_decl = 0) /\
  (map (fun m => (pl_name m, pl_offset m)) (layout ssl_data_decl) = [("buf", 0)] /\
   struct_size ssl_data_decl = 8 /\
   forall k, struct_carries k ssl_data_decl = false).
Proof.
  split; [repeat split; reflexivity|]. split; [|split].
  - intros e off_data off_len He Hdata Hlen.
    vm_compute in Hdata. vm_compute in Hlen.
    injection Hdata as <-. injection Hlen as <-.
    pose proof (payload_length_le e) as Hle.
    pose proof (wf_data_length e He) as Hwf. lia.
  - repeat split; reflexivity.
  - repeat split; try reflexivity. intros k; destruct k; reflexivity.
Qed.

Lemma wire_struct_layout_witness :
  24 + Z.of_nat (List.length (payload full_event)) <= 8216.
Proof.
  destruct wire_struct_layout as (_ & Hpayload & _).
  apply (Hpayload full_event 24 8216 full_event_wf); reflexivity.
Defined.

End WireFacts.
(* ================================================================== *)
(** * Part IV: the reassembly buffer, verified *)
(* ================================================================== *)

Module ReassemblyFacts.

Import Reassembly.

Local Open Scope list_scope.
Local Open Scope N_scope.

(** ** From the wire to the engine *)

(** Every well-formed wire event is a well-formed Capture Event: [ingest]
    rejects none of them. *)
Lemma of_wire_well_formed (truncated : bool) (e : Wire.ssl_data_event_t) :
  Wire.ssl_data_event_wf e -> well_formed (of_wire truncated e) = true.
Proof.
  intros He. apply Nat.leb_le. simpl.
  pose proof (WireFacts.payload_length_le e) as Hle.
  pose proof (WireFacts.wf_data_length e He) as Hlen.
  unfold MAX_CHUNK, Wire.MAX_DATA_SIZE. lia.
Qed.

(** ** Lists *)

Lemma StronglySorted_app {A : Type} (R : A -> A -> Prop) (l1 l2 : list A) :
  StronglySorted R l1 -> StronglySorted R l2 ->
  (forall x y, In x l1 -> In y l2 -> R x y) ->
  StronglySorted R (l1 ++ l2).
Proof.
  intros H1 H2 H12. induction H1 as [|a l1 Hl1 IH Ha]; simpl; [assumption|].
  constructor.
  - apply IH. intros x y Hx Hy. apply H12; [right|]; assumption.
  - apply Forall_app. split; [assumption|].
    apply Forall_forall. intros y Hy. apply H12; [left; reflexivity | assumption].
Qed.

Lemma filter_split {A : Type} (f g h : A -> bool) (l : list A) :
  (forall x, In x l -> f x = g x || h x) ->
  (forall x, In x l -> g x && h x = false) ->
  Permutation (filter f l) (filter g l ++ filter h l).
Proof.
  induction l as [|a l IH]; intros Hf Hgh; simpl; [constructor|].
  assert (IH' : Permutation (filter f l) (filter g l ++ filter h l)).
  { apply IH; intros x Hx; [apply Hf | apply Hgh]; right; assumption. }
  specialize (Hf a (or_introl eq_refl)). specialize (Hgh a (or_introl eq_refl)).
  destruct (g a), (h a); simpl in Hf, Hgh; try discriminate; rewrite Hf; simpl.
  - constructor; assumption.
  - apply Permutation_cons_app; assumption.
  - assumption.
Qed.

Lemma filter_perm {A : Type} (f : A -> bool) (l l' : list A) :
  Permutation l l' -> Permutation (filter f l) (filter f l').
Proof.
  intros H. induction H as [| x l l' H IH | x y l | l l' l'' H1 IH1 H2 IH2]; simpl.
  - constructor.
  - destruct (f x); [constructor|]; assumption.
  - destruct (f x), (f y); try reflexivity. apply perm_swap.
  - etransitivity; eassumption.
Qed.

Lemma filter_all {A : Type} (f : A -> bool) (l : list A) :
  (forall x, In x l -> f x = true) -> filter f l = l.
Proof.
  intros H. apply forallb_filter_id. apply forallb_forall. assumption.
Qed.

Lemma filter_none {A : Type} (f : A -> bool) (l : list A) :
  (forall x, In x l -> f x = false) -> filter f l = [].
Proof.
  induction l as [|a l IH]; intros H; simpl; [reflexivity|].
  rewrite (H a (or_introl eq_refl)). apply IH. intros x Hx. apply H. right; assumption.
Qed.

Lemma filter_nil_inv {A : Type} (f : A -> bool) (l : list A) (x : A) :
  filter f l = [] -> In x l -> f x = false.
Proof.
  intros Hnil Hin. destruct (f x) eqn:Hfx; [|reflexivity].
  assert (Hx : In x (filter f l)) by (apply filter_In; split; assumption).
  rewrite Hnil in Hx. destruct Hx.
Qed.

Lemma filter_length_le {A : Type} (f : A -> bool) (l : list A) :
  (List.length (filter f l) <= List.length l)%nat.
Proof.
  induction l as [|a l IH]; simpl; [lia|]. destruct (f a); simpl; lia.
Qed.

Lemma filter_length_lt {A : Type} (f : A -> bool) (l : list A) (x : A) :
  In x l -> f x = false -> (List.length (filter f l) < List.length l)%nat.
Proof.
  induction l as [|a l IH]; intros Hin Hfx; simpl; [destruct Hin|].
  destruct Hin as [-> | Hin].
  - rewrite Hfx. pose proof (filter_length_le f l). lia.
  - specialize (IH Hin Hfx). destruct (f a); simpl; lia.
Qed.

Lemma NoDup_map_filter {A B : Type} (k : A -> B) (f : A -> bool) (l : list A) :
  NoDup (map k l) -> NoDup (map k (filter f l)).
Proof.
  induction l as [|a l IH]; intros H; simpl; [constructor|].
  simpl in H. apply NoDup_cons_iff in H as [Hnotin Hnd].
  destruct (f a); simpl; [|apply IH; assumption].
  constructor; [|apply IH; assumption].
  intros Hin. apply Hnotin. apply in_map_iff in Hin as (x & Hkx & Hx).
  apply in_map_iff. exists x. split; [assumption|].
  apply filter_In in Hx. tauto.
Qed.

Lemma buffered_bytes_app (l1 l2 : list chunk) :
  buffered_bytes (l1 ++ l2) = (buffered_bytes l1 + buffered_bytes l2)%nat.
Proof.
  unfold buffered_bytes. rewrite map_app. apply list_sum_app.
Qed.

Lemma buffered_bytes_filter (f : chunk -> bool) (l : list chunk) :
  (buffered_bytes (filter f l) <= buffered_bytes l)%nat.
Proof.
  unfold buffered_bytes. induction l as [|a l IH]; simpl; [lia|].
  destruct (f a); simpl; lia.
Qed.

Lemma buffered_bytes_perm (l1 l2 : list chunk) :
  Permutation l1 l2 -> buffered_bytes l1 = buffered_bytes l2.
Proof.
  intros H. induction H; unfold buffered_bytes in *; simpl; lia.
Qed.

Lemma emitted_app (o1 o2 : list output) :
  emitted (o1 ++ o2) = emitted o1 ++ emitted o2.
Proof.
  unfold emitted. apply flat_map_app.
Qed.

(** ** Positions *)

Lemma first_position_le (l : list chunk) (p : N) :
  first_position l = Some p -> forall c, In c l -> p <= ck_ts c.
Proof.
  revert p. induction l as [|a l IH]; intros p Hp c Hc; [destruct Hc|].
  simpl in Hp. destruct (first_position l) as [q|] eqn:Hq.
  - injection Hp as <-. destruct Hc as [-> | Hc].
    + apply N.le_min_l.
    + specialize (IH q eq_refl c Hc). etransitivity; [apply N.le_min_r | exact IH].
  - injection Hp as <-. destruct l as [|b l].
    + destruct Hc as [-> | []]. reflexivity.
    + simpl in Hq. destruct (first_position l); discriminate.
Qed.

Lemma first_position_In (l : list chunk) (p : N) :
  first_position l = Some p -> exists c, In c l /\ ck_ts c = p.
Proof.
  revert p. induction l as [|a l IH]; intros p Hp; [discriminate|].
  simpl in Hp. destruct (first_position l) as [q|] eqn:Hq.
  - injection Hp as <-. destruct (N.min_spec (ck_ts a) q) as [[_ ->] | [_ ->]].
    + exists a. split; [left|]; reflexivity.
    + destruct (IH q eq_refl) as (c & Hc & Hts). exists c. split; [right|]; assumption.
  - injection Hp as <-. exists a. split; [left|]; reflexivity.
Qed.

Lemma first_position_None (l : list chunk) :
  first_position l = None -> l = [].
Proof.
  destruct l as [|a l]; [reflexivity|]. simpl.
  destruct (first_position l); discriminate.
Qed.

Lemma first_position_Some (l : list chunk) :
  l <> [] -> exists p, first_position l = Some p.
Proof.
  destruct (first_position l) as [p|] eqn:Hp; [eauto|].
  intros H. apply first_position_None in Hp. contradiction.
Qed.

Lemma from_position_In (p : N) (l : list chunk) (c : chunk) :
  In c (from_position p l) <-> In c l /\ p <= ck_ts c.
Proof.
  unfold from_position. rewrite filter_In, N.leb_le. reflexivity.
Qed.

Lemma at_position_In (p : N) (l : list chunk) (c : chunk) :
  In c (at_position p l) <-> In c l /\ ck_ts c = p.
Proof.
  unfold at_position. rewrite filter_In, N.eqb_eq. reflexivity.
Qed.

Lemma from_position_from_position (p q : N) (l : list chunk) :
  p <= q -> from_position q (from_position p l) = from_position q l.
Proof.
  intros Hpq. unfold from_position. induction l as [|a l IH]; simpl; [reflexivity|].
  destruct (q <=? ck_ts a) eqn:Hq.
  - assert (Hp : (p <=? ck_ts a) = true) by (apply N.leb_le; apply N.leb_le in Hq; lia).
    rewrite Hp; simpl. rewrite Hq, IH. reflexivity.
  - destruct (p <=? ck_ts a); simpl; [rewrite Hq|]; exact IH.
Qed.

Lemma from_position_id (p : N) (l : list chunk) :
  (forall c, In c l -> p <= ck_ts c) -> from_position p l = l.
Proof.
  intros H. apply filter_all. intros c Hc. apply N.leb_le. apply H. assumption.
Qed.

Lemma at_position_from_position (p q : N) (l : list chunk) :
  q <= p -> at_position p (from_position q l) = at_position p l.
Proof.
  intros Hqp. unfold at_position, from_position.
  induction l as [|a l IH]; simpl; [reflexivity|].
  destruct (ck_ts a =? p) eqn:Hp.
  - assert (Hq : (q <=? ck_ts a) = true) by (apply N.leb_le; apply N.eqb_eq in Hp; lia).
    rewrite Hq; simpl. rewrite Hp, IH. reflexivity.
  - destruct (q <=? ck_ts a); simpl; [rewrite Hp|]; exact IH.
Qed.

(** The window from [p] is the chunks at [p] and the window from [p + 1]. *)
Lemma from_position_succ (p : N) (l : list chunk) :
  Permutation (from_position p l) (at_position p l ++ from_position (N.succ p) l).
Proof.
  apply filter_split; intros c _.
  - destruct (ck_ts c =? p) eqn:H1, (N.succ p <=? ck_ts c) eqn:H2, (p <=? ck_ts c) eqn:H3;
      try reflexivity;
      rewrite ?N.eqb_eq, ?N.eqb_neq, ?N.leb_le, ?N.leb_gt in *; lia.
  - destruct (ck_ts c =? p) eqn:H1, (N.succ p <=? ck_ts c) eqn:H2; try reflexivity.
    rewrite ?N.eqb_eq, ?N.leb_le in *; lia.
Qed.

(** ** The contiguous run *)

Lemma contiguous_run_le (fuel : nat) (p : N) (l : list chunk) :
  p <= snd (contiguous_run fuel p l).
Proof.
  revert p. induction fuel as [|fuel IH]; intros p; simpl; [reflexivity|].
  destruct (at_position p l) as [|c here]; simpl; [reflexivity|].
  specialize (IH (N.succ p)). destruct (contiguous_run fuel (N.succ p) l) as [rest p'].
  simpl in *. lia.
Qed.

(** The run and the window behind it make up the window it started from. *)
Lemma contiguous_run_perm (fuel : nat) (p : N) (l : list chunk) :
  Permutation (fst (contiguous_run fuel p l) ++ from_position (snd (contiguous_run fuel p l)) l)
              (from_position p l).
Proof.
  revert p. induction fuel as [|fuel IH]; intros p; simpl; [reflexivity|].
  destruct (at_position p l) as [|c here] eqn:Hhere; simpl; [reflexivity|].
  specialize (IH (N.succ p)). destruct (contiguous_run fuel (N.succ p) l) as [rest p'].
  simpl in *. rewrite (from_position_succ p l), Hhere.
  rewrite <- IH. simpl. rewrite <- app_assoc. reflexivity.
Qed.

Lemma contiguous_run_bounds (fuel : nat) (p : N) (l : list chunk) (c : chunk) :
  In c (fst (contiguous_run fuel p l)) ->
  In c l /\ p <= ck_ts c < snd (contiguous_run fuel p l).
Proof.
  revert p. induction fuel as [|fuel IH]; intros p; simpl; [intros []|].
  destruct (at_position p l) as [|c0 here] eqn:Hhere; simpl; [intros []|].
  specialize (IH (N.succ p)).
  pose proof (contiguous_run_le fuel (N.succ p) l) as Hle.
  destruct (contiguous_run fuel (N.succ p) l) as [rest p'].
  simpl in *. intros [<- | Hin].
  - assert (Hc : In c0 (at_position p l)) by (rewrite Hhere; left; reflexivity).
    apply at_position_In in Hc. destruct Hc as [Hc ->]. split; [assumption|lia].
  - apply in_app_or in Hin. destruct Hin as [Hin | Hin].
    + assert (Hc : In c (at_position p l)) by (rewrite Hhere; right; assumption).
      apply at_position_In in Hc. destruct Hc as [Hc ->]. split; [assumption|lia].
    + destruct (IH Hin) as [Hc Hb]. split; [assumption|lia].
Qed.

Lemma same_position_sorted (p : N) (k : list chunk) :
  (forall c, In c k -> ck_ts c = p) ->
  StronglySorted (fun a b => ck_ts a <= ck_ts b) k.
Proof.
  induction k as [|a k IHk]; intros Hall; constructor.
  - apply IHk. intros c Hc. apply Hall. right; assumption.
  - apply Forall_forall. intros c Hc.
    rewrite (Hall a (or_introl eq_refl)), (Hall c (or_intror Hc)). reflexivity.
Qed.

(** The chunks of a run are in position order. *)
Lemma contiguous_run_sorted (fuel : nat) (p : N) (l : list chunk) :
  StronglySorted (fun a b => ck_ts a <= ck_ts b) (fst (contiguous_run fuel p l)).
Proof.
  revert p. induction fuel as [|fuel IH]; intros p; simpl; [constructor|].
  destruct (at_position p l) as [|c0 here] eqn:Hhere; simpl; [constructor|].
  specialize (IH (N.succ p)).
  pose proof (contiguous_run_bounds fuel (N.succ p) l) as Hb.
  destruct (contiguous_run fuel (N.succ p) l) as [rest p'].
  simpl in *. change (c0 :: here ++ rest) with ((c0 :: here) ++ rest). rewrite <- Hhere.
  apply StronglySorted_app; [|assumption|].
  - apply same_position_sorted with (p := p).
    intros c Hc. apply at_position_In in Hc. tauto.
  - intros x y Hx Hy. apply at_position_In in Hx. destruct Hx as [_ ->].
    specialize (Hb y Hy). lia.
Qed.

(** The scan stops by itself: with the fuel [drain_loop] gives it, the
    position it stops at has no chunk. *)
Lemma contiguous_run_stops (fuel : nat) (p : N) (l : list chunk) :
  (List.length (from_position p l) <= fuel)%nat ->
  at_position (snd (contiguous_run fuel p l)) l = [].
Proof.
  revert p. induction fuel as [|fuel IH]; intros p Hfuel; simpl.
  - apply filter_none. intros c Hc. apply N.eqb_neq. intros Heq.
    assert (Hin : In c (from_position p l)) by (apply from_position_In; split; [assumption|lia]).
    destruct (from_position p l); [destruct Hin | simpl in Hfuel; lia].
  - destruct (at_position p l) as [|c0 here] eqn:Hhere; simpl; [assumption|].
    specialize (IH (N.succ p)).
    destruct (contiguous_run fuel (N.succ p) l) as [rest p'] eqn:Hrun.
    simpl in *. apply IH.
    pose proof (Permutation_length (from_position_succ p l)) as Hlen.
    rewrite length_app, Hhere in Hlen. simpl in Hlen. lia.
Qed.

Lemma contiguous_run_hole (fuel : nat) (p : N) (l : list chunk) :
  at_position p l = [] -> contiguous_run fuel p l = ([], p).
Proof.
  intros H. destruct fuel; simpl; [|rewrite H]; reflexivity.
Qed.

(** More fuel than the chunks of the window changes nothing. *)
Lemma contiguous_run_fuel (fuel fuel' : nat) (p : N) (l : list chunk) :
  (List.length (from_position p l) <= fuel)%nat ->
  (List.length (from_position p l) <= fuel')%nat ->
  contiguous_run fuel p l = contiguous_run fuel' p l.
Proof.
  revert fuel' p. induction fuel as [|fuel IH]; intros fuel' p Hfuel Hfuel'.
  - assert (Hnone : at_position p l = []).
    { apply filter_none. intros c Hc. apply N.eqb_neq. intros Heq.
      assert (Hin : In c (from_position p l))
        by (apply from_position_In; split; [assumption|lia]).
      destruct (from_position p l); [destruct Hin | simpl in Hfuel; lia]. }
    rewrite !contiguous_run_hole by assumption. reflexivity.
  - simpl. destruct (at_position p l) as [|c0 here] eqn:Hhere.
    + rewrite contiguous_run_hole by assumption. reflexivity.
    + pose proof (Permutation_length (from_position_succ p l)) as Hlen.
      rewrite length_app, Hhere in Hlen. simpl in Hlen.
      destruct fuel' as [|fuel']; [lia|]. simpl. rewrite Hhere.
      rewrite (IH fuel' (N.succ p)) by lia. reflexivity.
Qed.

Lemma contiguous_run_nonempty (fuel : nat) (p : N) (l : list chunk) (c : chunk) :
  In c l -> ck_ts c = p -> fuel <> O ->
  fst (contiguous_run fuel p l) <> [] /\ p < snd (contiguous_run fuel p l).
Proof.
  intros Hc Hts Hfuel. destruct fuel as [|fuel]; [contradiction|]. simpl.
  assert (Hin : In c (at_position p l)) by (apply at_position_In; split; assumption).
  destruct (at_position p l) as [|c0 here]; [destruct Hin|].
  pose proof (contiguous_run_le fuel (N.succ p) l) as Hle.
  destruct (contiguous_run fuel (N.succ p) l) as [rest p']. simpl in *.
  split; [discriminate | lia].
Qed.

(** ** One drain cycle *)

Lemma hold_nothing_ok : hold_ok hold_nothing.
Proof.
  intros run p1. left. reflexivity.
Qed.

Lemma trailing_truncated_incl (run : list chunk) (c : chunk) :
  In c (trailing_truncated run) -> In c run.
Proof.
  induction run as [|a run IH]; simpl; [tauto|].
  destruct (is_truncated (ck_event a) && _)%bool; simpl; tauto.
Qed.

Lemma held_from_ok (span : nat) : hold_ok (held_from span).
Proof.
  intros run p1. unfold held_from.
  destruct (trailing_truncated run) as [|c t] eqn:Ht; [left; reflexivity|].
  destruct (_ <? _)%nat; [right | left; reflexivity].
  exists c. split; [|reflexivity].
  apply trailing_truncated_incl. rewrite Ht. left; reflexivity.
Qed.

Lemma emitted_segment (run : list chunk) : emitted (segment run) = run.
Proof.
  destruct run; simpl; [reflexivity|]. rewrite app_nil_r. reflexivity.
Qed.

Lemma segment_no_gap (run : list chunk) (a z : N) : ~ In (GapMarker a z) (segment run).
Proof.
  destruct run; simpl; [tauto|]. intros [Habs | []]. discriminate.
Qed.

Lemma window_from_position (p : N) (l : list chunk) : window p (from_position p l).
Proof.
  intros c Hc. apply from_position_In in Hc. tauto.
Qed.

Lemma window_first_position (p : N) (l : list chunk) :
  first_position l = Some p -> window p l.
Proof.
  intros H c Hc. exact (first_position_le l p H c Hc).
Qed.

(** The position a run is held from lies between its start and its end. *)
Lemma hold_bounds (hold : list chunk -> N -> N) (run : list chunk) (p p1 : N) :
  hold_ok hold -> p <= p1 ->
  (forall c, In c run -> p <= ck_ts c < p1) ->
  p <= hold run p1 <= p1.
Proof.
  intros Hok Hle Hb. destruct (Hok run p1) as [-> | (c & Hc & ->)]; [lia|].
  specialize (Hb c Hc). lia.
Qed.

(** Holding a run back from [h] splits the window in what is emitted,
    the part of the run before [h], and what stays, the window from [h]. *)
Lemma hold_perm (run : list chunk) (p1 h : N) (l : list chunk) :
  Permutation (run ++ from_position p1 l) l ->
  h <= p1 ->
  Permutation (filter (fun c => ck_ts c <? h) run ++ from_position h l) l.
Proof.
  intros Hperm Hle.
  assert (Hsplit : Permutation run (filter (fun c => ck_ts c <? h) run ++
                                    filter (fun c => h <=? ck_ts c) run)).
  { rewrite <- (filter_all (fun _ => true) run) at 1 by reflexivity.
    apply filter_split; intros c _.
    - destruct (ck_ts c <? h) eqn:H1, (h <=? ck_ts c) eqn:H2; try reflexivity.
      apply N.ltb_ge in H1. apply N.leb_gt in H2. lia.
    - destruct (ck_ts c <? h) eqn:H1, (h <=? ck_ts c) eqn:H2; try reflexivity.
      apply N.ltb_lt in H1. apply N.leb_le in H2. lia. }
  assert (Hfrom : Permutation (from_position h l)
                    (filter (fun c => h <=? ck_ts c) run ++ from_position p1 l)).
  { unfold from_position at 1.
    rewrite <- (filter_perm _ _ _ Hperm), filter_app.
    fold (from_position h (from_position p1 l)).
    rewrite from_position_id; [reflexivity|].
    intros c Hc. apply from_position_In in Hc. lia. }
  rewrite Hfrom, app_assoc, <- Hsplit. exact Hperm.
Qed.

Lemma ordered_filter (f : chunk -> bool) (l : list chunk) :
  ordered l -> ordered (filter f l).
Proof.
  unfold ordered. intros H. induction H as [|a l Hl IH Ha]; simpl; [constructor|].
  destruct (f a); [|assumption]. constructor; [assumption|].
  apply Forall_forall. intros c Hc. apply filter_In in Hc.
  rewrite Forall_forall in Ha. apply Ha. tauto.
Qed.

(** What a drain cycle does to the window it is given: the expected
    position only moves forward; the chunks that stay are those at or
    after the new expected position; what is emitted lies between the old
    and the new expected position, in position order; and emitted and
    kept chunks together are the chunks of the window. *)
Lemma drain_loop_spec (t : list chunk -> bool) (hold : list chunk -> N -> N)
      (fuel : nat) (p : N) (l : list chunk)
      (out : list output) (p' : N) (l' : list chunk) :
  hold_ok hold ->
  window p l ->
  drain_loop t hold fuel p l = (out, p', l') ->
  p <= p' /\
  l' = from_position p' l /\
  (forall c, In c (emitted out) -> p <= ck_ts c < p') /\
  ordered (emitted out) /\
  Permutation (emitted out ++ l') l.
Proof.
  intros Hok. revert p l out p' l'.
  induction fuel as [|fuel IH]; intros p l out p' l' Hwin Hrun.
  - simpl in Hrun. injection Hrun as <- <- <-. simpl.
    split; [lia|]. split; [|split; [|split]].
    + symmetry. apply from_position_id. assumption.
    + intros c [].
    + constructor.
    + reflexivity.
  - simpl in Hrun.
    pose proof (contiguous_run_le (List.length l) p l) as Hle.
    pose proof (contiguous_run_perm (List.length l) p l) as Hperm.
    pose proof (contiguous_run_bounds (List.length l) p l) as Hbounds.
    pose proof (contiguous_run_sorted (List.length l) p l) as Hsorted.
    destruct (contiguous_run (List.length l) p l) as [run p1]. simpl in *.
    rewrite (from_position_id p l Hwin) in Hperm.
    assert (Hin_run : forall c, In c run -> p <= ck_ts c < p1)
      by (intros c Hc; apply Hbounds; assumption).
    assert (Hstop :
      let h := hold run p1 in
      p <= h /\ from_position h l = from_position h l /\
      (forall c, In c (emitted (segment (filter (fun c => ck_ts c <? h) run))) ->
                 p <= ck_ts c < h) /\
      ordered (emitted (segment (filter (fun c => ck_ts c <? h) run))) /\
      Permutation (emitted (segment (filter (fun c => ck_ts c <? h) run))
                   ++ from_position h l) l).
    { intros h. destruct (hold_bounds hold run p p1 Hok Hle Hin_run) as [Hph Hhp1].
      fold h in Hph, Hhp1. rewrite emitted_segment.
      split; [assumption|]. split; [reflexivity|]. split; [|split].
      - intros c Hc. apply filter_In in Hc. destruct Hc as [Hc Hlt].
        apply Hin_run in Hc. apply N.ltb_lt in Hlt. lia.
      - apply ordered_filter. assumption.
      - apply hold_perm with (p1 := p1); assumption. }
    destruct (first_position (from_position p1 l)) as [p2|] eqn:Hfp;
      [destruct (t (from_position p1 l)) eqn:Ht|];
      try (injection Hrun as <- <- <-; exact Hstop).
    destruct (drain_loop t hold fuel p2 (from_position p1 l)) as [[out3 p3] l3] eqn:Hrec.
    injection Hrun as <- <- <-.
    pose proof (window_first_position _ _ Hfp) as Hwin2.
    destruct (IH _ _ _ _ _ Hwin2 Hrec) as (Hle3 & Hl3 & Hb3 & Hs3 & Hp3).
    assert (Hp12 : p1 <= p2).
    { destruct (first_position_In _ _ Hfp) as (c & Hc & <-).
      apply from_position_In in Hc. tauto. }
    rewrite emitted_app, emitted_segment. simpl.
    split; [lia|]. split; [|split; [|split]].
    + rewrite Hl3. apply from_position_from_position. lia.
    + intros c Hc. apply in_app_or in Hc. destruct Hc as [Hc | Hc].
      * apply Hin_run in Hc. lia.
      * apply Hb3 in Hc. lia.
    + apply StronglySorted_app; [assumption | assumption |].
      intros x y Hx Hy. apply Hin_run in Hx. apply Hb3 in Hy. lia.
    + rewrite <- app_assoc, Hp3. exact Hperm.
Qed.

Lemma enough_positive (fuel : nat) (p : N) (l : list chunk) :
  enough fuel p l -> fuel <> O.
Proof.
  intros [[Hne Hlen] | Hlen]; [|lia].
  destruct l; [exfalso; apply Hne; reflexivity | simpl in Hlen; lia].
Qed.

(** After a gap marker the cycle goes on with [enough] fuel. *)
Lemma enough_past_hole (fuel : nat) (p p2 : N) (l : list chunk) :
  enough (S fuel) p l ->
  first_position (from_position (snd (contiguous_run (List.length l) p l)) l) = Some p2 ->
  enough fuel p2 (from_position (snd (contiguous_run (List.length l) p l)) l).
Proof.
  intros Hfuel Hfp. left. split.
  - destruct (first_position_In _ _ Hfp) as (c & Hc & Hts).
    intros Hnil. apply (filter_nil_inv _ _ c) in Hnil; [|assumption].
    apply N.eqb_neq in Hnil. contradiction.
  - destruct Hfuel as [[Hne Hlen] | Hlen].
    + destruct (at_position p l) as [|c here] eqn:Hhere; [contradiction|].
      assert (Hc : In c (at_position p l)) by (rewrite Hhere; left; reflexivity).
      apply at_position_In in Hc. destruct Hc as [Hc Hts].
      assert (Hfuel0 : List.length l <> O) by (destruct l; [destruct Hc | discriminate]).
      destruct (contiguous_run_nonempty (List.length l) p l c Hc Hts Hfuel0) as [_ Hlt].
      assert (Hshrink : (List.length (from_position
                           (snd (contiguous_run (List.length l) p l)) l)
                         < List.length l)%nat).
      { apply filter_length_lt with (x := c); [assumption|]. apply N.leb_gt. lia. }
      lia.
    + pose proof (filter_length_le
                    (fun c => snd (contiguous_run (List.length l) p l) <=? ck_ts c) l) as Hl.
      unfold from_position. lia.
Qed.

(** The drain cycle stops by itself, not for lack of fuel: it ends at a
    run after which nothing is left or the wait is not over, and what [hold]
    decides for that run is the new expected position. *)
Lemma drain_loop_stops (t : list chunk -> bool) (hold : list chunk -> N -> N)
      (fuel : nat) (p : N) (l : list chunk)
      (out : list output) (p' : N) (l' : list chunk) :
  window p l -> enough fuel p l ->
  drain_loop t hold fuel p l = (out, p', l') ->
  exists run p1,
    p <= p1 /\
    p' = hold run p1 /\
    at_position p1 l = [] /\
    (from_position p1 l = [] \/ t (from_position p1 l) = false).
Proof.
  revert p l out p' l'. induction fuel as [|fuel IH]; intros p l out p' l' Hwin Hfuel Hrun.
  - exfalso. exact (enough_positive _ _ _ Hfuel eq_refl).
  - simpl in Hrun.
    pose proof (contiguous_run_stops (List.length l) p l (filter_length_le _ l)) as Hstop.
    pose proof (contiguous_run_le (List.length l) p l) as Hle.
    pose proof (fun p2 => enough_past_hole fuel p p2 l Hfuel) as Hpast.
    destruct (contiguous_run (List.length l) p l) as [run p1]. simpl in *.
    destruct (first_position (from_position p1 l)) as [p2|] eqn:Hfp;
      [destruct (t (from_position p1 l)) eqn:Ht|].
    + destruct (drain_loop t hold fuel p2 (from_position p1 l)) as [[out3 p3] l3] eqn:Hrec.
      injection Hrun as <- <- <-.
      destruct (IH _ _ _ _ _ (window_first_position _ _ Hfp) (Hpast p2 eq_refl) Hrec)
        as (run' & q & Hp2q & Hq & Hhole & Hend).
      assert (Hp12 : p1 <= p2).
      { destruct (first_position_In _ _ Hfp) as (c & Hc & <-).
        apply from_position_In in Hc. tauto. }
      exists run', q. split; [lia|]. split; [assumption|]. split.
      * rewrite at_position_from_position in Hhole by lia. assumption.
      * rewrite from_position_from_position in Hend by lia. assumption.
    + injection Hrun as <- <- <-. exists run, p1. repeat split; try assumption.
      right; assumption.
    + injection Hrun as <- <- <-. exists run, p1. repeat split; try assumption.
      left. apply first_position_None. assumption.
Qed.

(** Any fuel that is [enough] gives the same drain cycle. *)
Lemma drain_loop_fuel (t : list chunk -> bool) (hold : list chunk -> N -> N)
      (fuel fuel' : nat) (p : N) (l : list chunk) :
  window p l -> enough fuel p l -> enough fuel' p l ->
  drain_loop t hold fuel p l = drain_loop t hold fuel' p l.
Proof.
  revert fuel' p l. induction fuel as [|fuel IH]; intros fuel' p l Hwin Hfuel Hfuel'.
  - exfalso. exact (enough_positive _ _ _ Hfuel eq_refl).
  - destruct fuel' as [|fuel'].
    { exfalso. exact (enough_positive _ _ _ Hfuel' eq_refl). }
    simpl.
    pose proof (fun p2 => enough_past_hole fuel p p2 l Hfuel) as Hpast.
    pose proof (fun p2 => enough_past_hole fuel' p p2 l Hfuel') as Hpast'.
    destruct (contiguous_run (List.length l) p l) as [run p1]. simpl in *.
    destruct (first_position (from_position p1 l)) as [p2|] eqn:Hfp; [|reflexivity].
    destruct (t (from_position p1 l)); [|reflexivity].
    rewrite (IH fuel' p2 (from_position p1 l)); [reflexivity | | |].
    + apply window_first_position. assumption.
    + apply Hpast. reflexivity.
    + apply Hpast'. reflexivity.
Qed.

(** Every gap marker of a drain cycle names a hole inside the stretch the
    cycle went over. *)
Lemma drain_loop_gaps (t : list chunk -> bool) (hold : list chunk -> N -> N)
      (fuel : nat) (p : N) (l : list chunk)
      (out : list output) (p' : N) (l' : list chunk) :
  window p l ->
  drain_loop t hold fuel p l = (out, p', l') ->
  forall a z, In (GapMarker a z) out -> p <= a /\ a < z.
Proof.
  revert p l out p' l'. induction fuel as [|fuel IH]; intros p l out p' l' Hwin Hrun a z Hin.
  - simpl in Hrun. injection Hrun as <- <- <-. destruct Hin.
  - simpl in Hrun.
    pose proof (contiguous_run_stops (List.length l) p l (filter_length_le _ l)) as Hstop.
    pose proof (contiguous_run_le (List.length l) p l) as Hle.
    destruct (contiguous_run (List.length l) p l) as [run p1]. simpl in *.
    destruct (first_position (from_position p1 l)) as [p2|] eqn:Hfp;
      [destruct (t (from_position p1 l)) eqn:Ht|];
      try (injection Hrun as <- <- <-; exfalso; exact (segment_no_gap _ _ _ Hin)).
    destruct (drain_loop t hold fuel p2 (from_position p1 l)) as [[out3 p3] l3] eqn:Hrec.
    injection Hrun as <- <- <-.
    pose proof (window_first_position _ _ Hfp) as Hwin2.
    assert (Hp12 : p1 < p2).
    { destruct (first_position_In _ _ Hfp) as (c & Hc & <-).
      apply from_position_In in Hc. destruct Hc as [Hc Hge].
      apply (filter_nil_inv _ _ c) in Hstop; [|assumption].
      apply N.eqb_neq in Hstop. lia. }
    apply in_app_or in Hin. destruct Hin as [Hin | [Hin | Hin]].
    + exfalso. exact (segment_no_gap _ _ _ Hin).
    + injection Hin as <- <-. lia.
    + specialize (IH _ _ _ _ _ Hwin2 Hrec a z Hin). lia.
Qed.

(** A drain cycle that starts on a stored chunk: the first thing it emits
    is the segment of that chunk; if it emits nothing, the chunk is held
    back and the expected position stays; if nothing is ever held back, it
    does emit. *)
Lemma drain_loop_head (t : list chunk -> bool) (hold : list chunk -> N -> N)
      (fuel : nat) (p : N) (l : list chunk)
      (out : list output) (p' : N) (l' : list chunk) :
  hold_ok hold ->
  at_position p l <> [] -> fuel <> O ->
  drain_loop t hold fuel p l = (out, p', l') ->
  segment_first_at p out /\
  (out = [] -> p' = p) /\
  ((forall run p1, hold run p1 = p1) -> out <> []).
Proof.
  intros Hok Hat Hfuel Hrun. destruct fuel as [|fuel]; [contradiction|].
  simpl in Hrun.
  destruct (at_position p l) as [|c here] eqn:Hhere; [contradiction|].
  assert (Hc : In c (at_position p l)) by (rewrite Hhere; left; reflexivity).
  apply at_position_In in Hc. destruct Hc as [Hc Hts].
  assert (Hl : List.length l <> O) by (destruct l; [destruct Hc | discriminate]).
  destruct (contiguous_run_nonempty (List.length l) p l c Hc Hts Hl) as [Hne Hlt].
  pose proof (contiguous_run_bounds (List.length l) p l) as Hbounds.
  pose proof (contiguous_run_le (List.length l) p l) as Hle.
  assert (Hcrun : In c (fst (contiguous_run (List.length l) p l))).
  { destruct (List.length l) as [|n]; [contradiction|]. simpl. rewrite Hhere.
    destruct (contiguous_run n (N.succ p) l). left. reflexivity. }
  destruct (contiguous_run (List.length l) p l) as [run p1]. simpl in *.
  assert (Hin_run : forall x, In x run -> p <= ck_ts x < p1)
    by (intros x Hx; apply Hbounds; assumption).
  destruct (hold_bounds hold run p p1 Hok Hle Hin_run) as [Hph Hhp1].
  assert (Hstop :
    segment_first_at p (segment (filter (fun x => ck_ts x <? hold run p1) run)) /\
    (segment (filter (fun x => ck_ts x <? hold run p1) run) = [] -> hold run p1 = p) /\
    ((forall run p1, hold run p1 = p1) ->
     segment (filter (fun x => ck_ts x <? hold run p1) run) <> [])).
  { repeat split.
    - destruct (filter (fun x => ck_ts x <? hold run p1) run) as [|x kept] eqn:Hf;
        unfold segment, segment_first_at; [exact I|].
      assert (Hx : In x (filter (fun x => ck_ts x <? hold run p1) run))
        by (rewrite Hf; left; reflexivity).
      apply filter_In in Hx. destruct Hx as [Hx Hlt'].
      apply N.ltb_lt in Hlt'. specialize (Hin_run x Hx).
      exists c. split; [|assumption]. rewrite <- Hf. apply filter_In.
      split; [assumption|]. apply N.ltb_lt. lia.
    - intros Hnil.
      destruct (filter (fun x => ck_ts x <? hold run p1) run) eqn:Hf; [|discriminate].
      apply (filter_nil_inv _ _ c) in Hf; [|assumption].
      apply N.ltb_ge in Hf. lia.
    - intros Hnothing Hnil. rewrite Hnothing in Hnil.
      destruct (filter (fun x => ck_ts x <? p1) run) eqn:Hf; [|discriminate].
      apply (filter_nil_inv _ _ c) in Hf; [|assumption].
      apply N.ltb_ge in Hf. lia. }
  destruct (first_position (from_position p1 l)) as [p2|];
    [destruct (t (from_position p1 l))|];
    try (injection Hrun as <- <- <-; exact Hstop).
  destruct (drain_loop t hold fuel p2 (from_position p1 l)) as [[out3 p3] l3].
  injection Hrun as <- <- <-.
  destruct run as [|r run]; [contradiction|]. simpl. repeat split.
  - exists c. split; assumption.
  - discriminate.
  - discriminate.
Qed.

(** A drain cycle that starts on a hole, with newer chunks stored and the
    wait over, emits the gap marker of that hole and goes on from the
    first stored position. *)
Lemma drain_loop_gap_first (t : list chunk -> bool) (hold : list chunk -> N -> N)
      (fuel : nat) (p p2 : N) (l : list chunk) :
  window p l -> at_position p l = [] -> first_position l = Some p2 -> t l = true ->
  drain_loop t hold (S fuel) p l =
    (let '(out, p3, l3) := drain_loop t hold fuel p2 l in (GapMarker p p2 :: out, p3, l3)).
Proof.
  intros Hwin Hhole Hfp Ht. simpl.
  rewrite (contiguous_run_hole _ _ _ Hhole).
  rewrite (from_position_id p l Hwin), Hfp, Ht.
  destruct (drain_loop t hold fuel p2 l) as [[out3 p3] l3]. reflexivity.
Qed.


(** ** Late chunks *)

Lemma StronglySorted_impl {A : Type} (R S : A -> A -> Prop) (l : list A) :
  (forall x y, In x l -> In y l -> R x y -> S x y) ->
  StronglySorted R l -> StronglySorted S l.
Proof.
  intros HRS H. induction H as [|a l Hl IH Ha]; constructor.
  - apply IH. intros x y Hx Hy. apply HRS; right; assumption.
  - rewrite Forall_forall in *. intros y Hy.
    apply HRS; [left; reflexivity | right; assumption | apply Ha; assumption].
Qed.

Lemma StronglySorted_all {A : Type} (R : A -> A -> Prop) (l : list A) :
  (forall x y, In x l -> In y l -> R x y) -> StronglySorted R l.
Proof.
  induction l as [|a l IH]; intros H; constructor.
  - apply IH. intros x y Hx Hy. apply H; right; assumption.
  - apply Forall_forall. intros y Hy. apply H; [left; reflexivity | right; assumption].
Qed.

Lemma behind_In (p : N) (l : list chunk) (c : chunk) :
  In c (behind p l) <-> In c l /\ ck_ts c < p.
Proof.
  unfold behind. rewrite filter_In, N.ltb_lt. reflexivity.
Qed.

(** Nothing of a window is late. *)
Lemma behind_window (p : N) (l : list chunk) : window p l -> behind p l = [].
Proof.
  intros Hwin. apply filter_none. intros c Hc. apply N.ltb_ge. apply Hwin. assumption.
Qed.

(** The stored chunks are the late ones and the window. *)
Lemma behind_perm (p : N) (l : list chunk) :
  Permutation (behind p l ++ from_position p l) l.
Proof.
  rewrite <- (filter_all (fun _ => true) l) at 3 by reflexivity.
  symmetry. apply filter_split; intros c _.
  - destruct (ck_ts c <? p) eqn:H1, (p <=? ck_ts c) eqn:H2; try reflexivity.
    apply N.ltb_ge in H1. apply N.leb_gt in H2. lia.
  - destruct (ck_ts c <? p) eqn:H1, (p <=? ck_ts c) eqn:H2; try reflexivity.
    apply N.ltb_lt in H1. apply N.leb_le in H2. lia.
Qed.

Lemma behind_app (p : N) (l1 l2 : list chunk) :
  behind p (l1 ++ l2) = behind p l1 ++ behind p l2.
Proof.
  apply filter_app.
Qed.

(** ** Segments and gap markers in the output *)

Lemma segment_first_at_reached (p : N) (out : list output) :
  segment_first_at p out -> out <> [] -> segment_reached p out.
Proof.
  destruct out as [|[seg | a z] out]; simpl; [contradiction | | contradiction].
  intros H _. left. exact H.
Qed.

Lemma segment_reached_app (p : N) (out rest : list output) :
  segment_reached p out -> segment_reached p (out ++ rest).
Proof.
  induction out as [|[seg | a z] out IH]; simpl; [contradiction | | contradiction].
  intros [H | H]; [left | right; apply IH]; assumption.
Qed.

Lemma segment_reached_free (p : N) (out : list output) :
  segment_reached p out -> marker_free_until p out.
Proof.
  induction out as [|[seg | a z] out IH]; simpl; [contradiction | | contradiction].
  intros [H | H]; [left | right; apply IH]; assumption.
Qed.

Lemma marker_free_until_app (p : N) (out rest : list output) :
  marker_free_until p out ->
  segment_reached p out \/ marker_free_until p rest ->
  marker_free_until p (out ++ rest).
Proof.
  induction out as [|[seg | a z] out IH]; simpl.
  - intros _ [[] | H]. exact H.
  - intros [H | H] Hrest; [left; exact H|].
    destruct Hrest as [[Hr | Hr] | Hr]; [left; exact Hr | right | right];
      apply IH; auto.
  - contradiction.
Qed.

Lemma marker_free_until_segment (p : N) (late : list chunk) (out : list output) :
  marker_free_until p out -> marker_free_until p (segment late ++ out).
Proof.
  destruct late; simpl; [tauto|]. intros H. right. exact H.
Qed.

Lemma segment_reached_segment (p : N) (late : list chunk) (out : list output) :
  segment_reached p out -> segment_reached p (segment late ++ out).
Proof.
  destruct late; simpl; [tauto|]. intros H. right. exact H.
Qed.

(** ** The wait at a hole *)

Lemma oldest_received_le (l : list chunk) (r : N) (c : chunk) :
  oldest_received l = Some r -> In c l -> r <= ck_received c.
Proof.
  revert r. induction l as [|a l IH]; intros r Hr Hc; [destruct Hc|].
  simpl in Hr. destruct (oldest_received l) as [q|] eqn:Hq.
  - injection Hr as <-. destruct Hc as [-> | Hc].
    + apply N.le_min_l.
    + specialize (IH q eq_refl Hc). etransitivity; [apply N.le_min_r | exact IH].
  - injection Hr as <-. destruct l as [|b l].
    + destruct Hc as [-> | []]. reflexivity.
    + simpl in Hq. destruct (oldest_received l); discriminate.
Qed.

Lemma oldest_received_In (l : list chunk) (r : N) :
  oldest_received l = Some r -> exists c, In c l /\ ck_received c = r.
Proof.
  revert r. induction l as [|a l IH]; intros r Hr; [discriminate|].
  simpl in Hr. destruct (oldest_received l) as [q|] eqn:Hq.
  - injection Hr as <-. destruct (N.min_spec (ck_received a) q) as [[_ ->] | [_ ->]].
    + exists a. split; [left|]; reflexivity.
    + destruct (IH q eq_refl) as (c & Hc & Hts). exists c. split; [right|]; assumption.
  - injection Hr as <-. exists a. split; [left|]; reflexivity.
Qed.

Lemma oldest_received_None (l : list chunk) :
  oldest_received l = None -> l = [].
Proof.
  destruct l as [|a l]; [reflexivity|]. simpl.
  destruct (oldest_received l); discriminate.
Qed.

(** When the oldest of some chunks has aged beyond the gap-timeout, so
    has the oldest of any chunks they are among. *)
Lemma aged_mono (cfg : config) (now : N) (l1 l2 : list chunk) :
  (forall c, In c l1 -> In c l2) ->
  aged cfg now l1 = true -> aged cfg now l2 = true.
Proof.
  unfold aged. intros Hincl H1.
  destruct (oldest_received l1) as [r1|] eqn:Hr1; [|discriminate].
  destruct (oldest_received_In l1 r1 Hr1) as (c & Hc & Hrc).
  destruct (oldest_received l2) as [r2|] eqn:Hr2.
  - pose proof (oldest_received_le l2 r2 c Hr2 (Hincl c Hc)) as Hle.
    apply N.ltb_lt in H1. apply N.ltb_lt. lia.
  - apply oldest_received_None in Hr2. specialize (Hincl c Hc).
    rewrite Hr2 in Hincl. destruct Hincl.
Qed.

(** Every position the scan goes over has a chunk. *)
Lemma contiguous_run_present (fuel : nat) (p q : N) (l : list chunk) :
  p <= q < snd (contiguous_run fuel p l) -> at_position q l <> [].
Proof.
  revert p. induction fuel as [|fuel IH]; intros p; simpl; [lia|].
  destruct (at_position p l) as [|c here] eqn:Hhere; simpl; [lia|].
  specialize (IH (N.succ p)).
  destruct (contiguous_run fuel (N.succ p) l) as [rest p']. simpl in *.
  intros Hq. destruct (N.eq_dec q p) as [-> | Hne].
  - rewrite Hhere. discriminate.
  - apply IH. lia.
Qed.

(** A drain cycle over a window in which position [k] is missing, with
    newer chunks stored and the wait over at every hole up to [k]: the
    cycle emits the gap marker of the hole [a .. z) around [k]; what it
    emits before the marker lies before the hole; the hole has no stored
    chunk, position [z] has one; and what it emits after the marker is
    the drain cycle that starts at [z]. *)
Lemma drain_loop_marks (t : list chunk -> bool) (hold : list chunk -> N -> N)
      (fuel : nat) (p k : N) (l : list chunk) :
  window p l -> enough fuel p l ->
  p <= k -> at_position k l = [] -> from_position k l <> [] ->
  (forall q, p <= q -> q <= k -> t (from_position q l) = true) ->
  exists before a z after p' l' fuel',
    drain_loop t hold fuel p l = (before ++ GapMarker a z :: after, p', l') /\
    p <= a /\ a <= k /\ k < z /\
    (forall c, In c (emitted before) -> ck_ts c < a) /\
    (forall a' z', In (GapMarker a' z') before -> z' <= a) /\
    (forall c, In c l -> a <= ck_ts c -> z <= ck_ts c) /\
    has_position z l /\
    fuel' <> O /\
    drain_loop t hold fuel' z (from_position a l) = (after, p', l').
Proof.
  revert p l. induction fuel as [|fuel IH]; intros p l Hwin Hfuel Hpk Hhole Hnewer Ht.
  - exfalso. exact (enough_positive _ _ _ Hfuel eq_refl).
  - simpl.
    pose proof (contiguous_run_stops (List.length l) p l (filter_length_le _ l)) as Hstop.
    pose proof (contiguous_run_le (List.length l) p l) as Hle.
    pose proof (contiguous_run_bounds (List.length l) p l) as Hbounds.
    pose proof (contiguous_run_present (List.length l) p k l) as Hpresent.
    pose proof (fun p2 => enough_past_hole fuel p p2 l Hfuel) as Hpast.
    destruct (contiguous_run (List.length l) p l) as [run p1]. simpl in *.
    assert (Hp1k : p1 <= k).
    { destruct (N.lt_ge_cases k p1) as [Hlt | Hge]; [|assumption].
      exfalso. apply Hpresent; [lia | assumption]. }
    assert (Hne1 : from_position p1 l <> []).
    { destruct (from_position k l) as [|c rest] eqn:Hk; [contradiction|].
      assert (Hc : In c (from_position k l)) by (rewrite Hk; left; reflexivity).
      apply from_position_In in Hc. intros Hnil.
      assert (Hc1 : In c (from_position p1 l)) by (apply from_position_In; split; [tauto|lia]).
      rewrite Hnil in Hc1. destruct Hc1. }
    destruct (first_position_Some _ Hne1) as [p2 Hfp].
    rewrite Hfp, (Ht p1 Hle Hp1k).
    destruct (drain_loop t hold fuel p2 (from_position p1 l)) as [[out3 p3] l3] eqn:Hrec.
    pose proof (window_first_position _ _ Hfp) as Hwin2.
    destruct (first_position_In _ _ Hfp) as (c2 & Hc2 & Hts2).
    apply from_position_In in Hc2. destruct Hc2 as [Hc2 Hge2].
    assert (Hp12 : p1 < p2).
    { apply (filter_nil_inv _ _ c2) in Hstop; [|assumption].
      apply N.eqb_neq in Hstop. lia. }
    specialize (Hpast p2 Hfp).
    destruct (N.lt_ge_cases k p2) as [Hk | Hk].
    + exists (segment run), p1, p2, out3, p3, l3, fuel.
      split; [reflexivity|]. split; [assumption|]. split; [assumption|].
      split; [assumption|]. split; [|split; [|split; [|split; [|split]]]].
      * intros c Hc. rewrite emitted_segment in Hc. apply Hbounds in Hc. tauto.
      * intros a' z' Hin. exfalso. exact (segment_no_gap _ _ _ Hin).
      * intros c Hc Hge. apply (first_position_le _ _ Hfp).
        apply from_position_In. split; assumption.
      * exists c2. split; assumption.
      * exact (enough_positive _ _ _ Hpast).
      * assumption.
    + assert (Hhole2 : at_position k (from_position p1 l) = []).
      { rewrite at_position_from_position by assumption. assumption. }
      assert (Hnewer2 : from_position k (from_position p1 l) <> []).
      { rewrite from_position_from_position by assumption. assumption. }
      assert (Ht2 : forall q, p2 <= q -> q <= k ->
                              t (from_position q (from_position p1 l)) = true).
      { intros q Hq1 Hq2. rewrite from_position_from_position by lia.
        apply Ht; lia. }
      destruct (IH p2 (from_position p1 l) Hwin2 Hpast Hk Hhole2 Hnewer2 Ht2)
        as (before & a & z & after & p' & l' & fuel' & Heq & Hp2a & Hak & Hkz &
            Hbefore & Hmarks & Htight & Hz & Hfuel' & Hcont).
      rewrite Hrec in Heq. injection Heq as -> -> ->.
      exists (segment run ++ GapMarker p1 p2 :: before), a, z, after, p', l', fuel'.
      split; [rewrite <- app_assoc; reflexivity|].
      split; [lia|]. split; [assumption|]. split; [assumption|].
      split; [|split; [|split; [|split; [|split]]]].
      * intros c Hc. rewrite emitted_app, emitted_segment in Hc. simpl in Hc.
        apply in_app_or in Hc. destruct Hc as [Hc | Hc].
        -- apply Hbounds in Hc. lia.
        -- apply Hbefore. assumption.
      * intros a' z' Hin. apply in_app_or in Hin. destruct Hin as [Hin | [Hin | Hin]].
        -- exfalso. exact (segment_no_gap _ _ _ Hin).
        -- injection Hin as <- <-. assumption.
        -- apply (Hmarks a' z'). assumption.
      * intros c Hc Hge. apply Htight; [|assumption].
        apply from_position_In. split; [assumption|lia].
      * destruct Hz as (c & Hc & Hts). apply from_position_In in Hc.
        exists c. split; [tauto | assumption].
      * assumption.
      * rewrite from_position_from_position in Hcont by lia. assumption.
Qed.
(** ** The buffer operations *)

Section Operations.

Variable payload_hash : list Byte.byte -> N.
Variable cfg : config.

Local Abbreviation key := (key payload_hash).
Local Abbreviation key_of := (key_of payload_hash).
Local Abbreviation distinct_keys := (distinct_keys payload_hash).
Local Abbreviation stream_inv := (stream_inv payload_hash).
Local Abbreviation present := (present payload_hash).
Local Abbreviation insert := (insert payload_hash).
Local Abbreviation same_key := (same_key payload_hash).
Local Abbreviation drain_with := (drain_with payload_hash).
Local Abbreviation flush := (flush payload_hash).
Local Abbreviation ingest := (ingest payload_hash cfg).
Local Abbreviation step := (step payload_hash cfg).
Local Abbreviation run := (run payload_hash cfg).
Local Abbreviation drain_ready := (drain_ready payload_hash cfg).
Local Abbreviation stored_by := (stored_by payload_hash).
Local Abbreviation accepted := (accepted payload_hash cfg).
Local Abbreviation arrived_after := (arrived_after payload_hash cfg).
Local Abbreviation ordered_up_to_late_arrivals :=
  (ordered_up_to_late_arrivals payload_hash cfg).
Local Abbreviation hold_back := (held_from (max_reassembly_span_chunks cfg)).

Lemma same_key_true (e : capture_event) (c : chunk) :
  same_key e c = true <-> key c = key_of e.
Proof.
  unfold Reassembly.same_key, Reassembly.key, Reassembly.key_of.
  rewrite andb_true_iff, !N.eqb_eq. split.
  - intros [-> ->]. reflexivity.
  - intros H. injection H as -> ->. split; reflexivity.
Qed.

Lemma existsb_same_key (e : capture_event) (l : list chunk) :
  existsb (same_key e) l = true <-> In (key_of e) (map key l).
Proof.
  rewrite existsb_exists, in_map_iff. split; intros (c & H1 & H2).
  - exists c. split; [apply same_key_true|]; assumption.
  - exists c. split; [|apply same_key_true]; assumption.
Qed.

Lemma key_eqb_true (k1 k2 : N * N) : key_eqb k1 k2 = true <-> k1 = k2.
Proof.
  destruct k1 as [t1 h1], k2 as [t2 h2]. unfold key_eqb. simpl.
  rewrite andb_true_iff, !N.eqb_eq. split.
  - intros [-> ->]. reflexivity.
  - intros H. injection H as -> ->. split; reflexivity.
Qed.

(** The event's pair is present: it is the pair of a chunk that was
    handed over, or of a stored chunk. *)
Lemma present_true (e : capture_event) (b : buffer) :
  present e b = true <-> In (key_of e) (delivered b ++ map key (pending b)).
Proof.
  unfold Reassembly.present. rewrite orb_true_iff, existsb_same_key, in_app_iff.
  rewrite existsb_exists. split.
  - intros [H | (k & Hk & Heq)]; [right; assumption|].
    left. apply key_eqb_true in Heq. rewrite Heq. assumption.
  - intros [H | H]; [right | left; assumption].
    exists (key_of e). split; [assumption | apply key_eqb_true; reflexivity].
Qed.

Lemma insert_expected (now : N) (e : capture_event) (b : buffer) :
  expected (insert now e b) = expected b.
Proof.
  unfold Reassembly.insert. destruct (present e b); reflexivity.
Qed.

Lemma insert_delivered (now : N) (e : capture_event) (b : buffer) :
  delivered (insert now e b) = delivered b.
Proof.
  unfold Reassembly.insert. destruct (present e b); reflexivity.
Qed.

(** What an insert stores. *)
Lemma insert_pending_eq (now : N) (e : capture_event) (b : buffer) :
  pending (insert now e b) =
  pending b ++ (if present e b then [] else [{| ck_event := e; ck_received := now |}]).
Proof.
  unfold Reassembly.insert. destruct (present e b); simpl; [rewrite app_nil_r|]; reflexivity.
Qed.

Lemma insert_pending (now : N) (e : capture_event) (b : buffer) (c : chunk) :
  In c (pending b) -> In c (pending (insert now e b)).
Proof.
  rewrite insert_pending_eq. intros H. apply in_or_app. left. assumption.
Qed.

(** After an insert the event's pair is present, whatever the buffer was. *)
Lemma insert_present (now : N) (e : capture_event) (b : buffer) :
  present e (insert now e b) = true.
Proof.
  apply present_true. rewrite insert_delivered, insert_pending_eq.
  destruct (present e b) eqn:Hp.
  - rewrite app_nil_r. apply present_true. assumption.
  - rewrite map_app, !in_app_iff. right. right. left. reflexivity.
Qed.

(** What a drain, with any rule for the end of the wait and any rule for
    holding back, does to a buffer: it hands over the late chunks, in
    arrival order, and then chunks [W] of the window, in position order,
    from the old expected position up to the new one; the chunks of the
    window from the new expected position on stay; no chunk is lost and
    none is made up; the pairs of the chunks handed over are kept; and
    every gap marker names a hole ahead of the old expected position. *)
Lemma drain_with_spec (t : list chunk -> bool) (hold : list chunk -> N -> N)
      (b : buffer) (out : list output) (b' : buffer) :
  hold_ok hold ->
  drain_with t hold b = (out, b') ->
  (exists W,
     emitted out = behind (expected b) (pending b) ++ W /\
     ordered W /\
     (forall c, In c W -> expected b <= ck_ts c < expected b')) /\
  expected b <= expected b' /\
  pending b' = from_position (expected b') (pending b) /\
  Permutation (emitted out ++ pending b') (pending b) /\
  delivered b' = delivered b ++ map key (emitted out) /\
  dropped_duplicates b' = dropped_duplicates b /\
  (forall a z, In (GapMarker a z) out -> expected b <= a /\ a < z).
Proof.
  unfold Reassembly.drain_with. intros Hok H.
  destruct (drain_loop t hold (S (List.length (from_position (expected b) (pending b))))
              (expected b) (from_position (expected b) (pending b)))
    as [[out1 p1] l1] eqn:Hloop.
  injection H as <- <-. simpl.
  pose proof (window_from_position (expected b) (pending b)) as Hwin.
  destruct (drain_loop_spec _ _ _ _ _ _ _ _ Hok Hwin Hloop) as (Hle & Hl1 & Hb & Hs & Hp).
  pose proof (drain_loop_gaps _ _ _ _ _ _ _ _ Hwin Hloop) as Hgaps.
  rewrite emitted_app, emitted_segment.
  split; [|split; [|split; [|split; [|split; [|split]]]]].
  - exists (emitted out1). split; [reflexivity|]. split; assumption.
  - assumption.
  - rewrite Hl1. apply from_position_from_position. assumption.
  - rewrite <- app_assoc, Hp. apply behind_perm.
  - reflexivity.
  - reflexivity.
  - intros a z Hin. apply in_app_or in Hin. destruct Hin as [Hin | Hin].
    + exfalso. exact (segment_no_gap _ _ _ Hin).
    + apply (Hgaps a z). assumption.
Qed.

(** After a drain nothing is stored behind the expected position, and
    what was handed over lies behind it. *)
Lemma drain_with_ahead (t : list chunk -> bool) (hold : list chunk -> N -> N)
      (b : buffer) (out : list output) (b' : buffer) :
  hold_ok hold ->
  drain_with t hold b = (out, b') ->
  window (expected b') (pending b') /\
  forall c, In c (emitted out) -> ck_ts c < expected b'.
Proof.
  intros Hok H.
  destruct (drain_with_spec t hold b out b' Hok H)
    as ((W & Hout & _ & Hb) & Hle & Hpend & _).
  split.
  - rewrite Hpend. apply window_from_position.
  - intros c Hc. rewrite Hout in Hc. apply in_app_or in Hc. destruct Hc as [Hc | Hc].
    + apply behind_In in Hc. lia.
    + apply Hb in Hc. lia.
Qed.

(** On a buffer that stores nothing behind its expected position a drain
    is the drain cycle. *)
Lemma drain_with_window (t : list chunk -> bool) (hold : list chunk -> N -> N) (b : buffer) :
  window (expected b) (pending b) ->
  fst (drain_with t hold b) =
  fst (fst (drain_loop t hold (S (List.length (pending b))) (expected b) (pending b))).
Proof.
  intros Hwin. unfold Reassembly.drain_with.
  rewrite (behind_window _ _ Hwin), (from_position_id _ _ Hwin).
  destruct (drain_loop t hold (S (List.length (pending b))) (expected b) (pending b))
    as [[out1 p1] l1].
  reflexivity.
Qed.

(** The flush leaves nothing behind. *)
Lemma flush_empties (b : buffer) : pending (snd (flush b)) = [].
Proof.
  unfold Reassembly.flush, Reassembly.drain_with.
  destruct (drain_loop (fun _ => true) hold_nothing
              (S (List.length (from_position (expected b) (pending b))))
              (expected b) (from_position (expected b) (pending b)))
    as [[out1 p1] l1] eqn:Hloop.
  simpl.
  pose proof (window_from_position (expected b) (pending b)) as Hwin.
  assert (Hfuel : enough (S (List.length (from_position (expected b) (pending b))))
                         (expected b) (from_position (expected b) (pending b)))
    by (right; lia).
  destruct (drain_loop_stops _ _ _ _ _ _ _ _ Hwin Hfuel Hloop)
    as (run0 & q & _ & Hq & _ & [Hnil | Habs]); [|discriminate].
  destruct (drain_loop_spec _ _ _ _ _ _ _ _ hold_nothing_ok Hwin Hloop) as (_ & Hl1 & _).
  rewrite Hl1, Hq. exact Hnil.
Qed.

(** The flush hands every stored chunk to the sink. *)
Lemma flush_emits_all (b : buffer) :
  Permutation (emitted (fst (flush b))) (pending b).
Proof.
  pose proof (flush_empties b) as Hempty. unfold Reassembly.flush in *.
  destruct (drain_with (fun _ => true) hold_nothing b) as [out b'] eqn:H. simpl in *.
  destruct (drain_with_spec _ _ _ _ _ hold_nothing_ok H) as (_ & _ & _ & Hperm & _).
  rewrite Hempty, app_nil_r in Hperm. exact Hperm.
Qed.

(** A drain of a buffer that stores nothing behind its expected position
    and whose expected chunk is missing, with newer chunks stored and the
    wait over, starts with the gap marker of the hole; what follows starts
    with the segment of the first stored position [k'], if anything
    follows. *)
Lemma drain_with_gap (t : list chunk -> bool) (hold : list chunk -> N -> N) (b : buffer) :
  hold_ok hold ->
  window (expected b) (pending b) ->
  at_position (expected b) (pending b) = [] ->
  pending b <> [] ->
  t (pending b) = true ->
  exists k' rest,
    fst (drain_with t hold b) = GapMarker (expected b) k' :: rest /\
    expected b < k' /\
    segment_first_at k' rest /\
    ((forall run0 p1, hold run0 p1 = p1) -> rest <> []).
Proof.
  intros Hok Hwin Hhole Hne Ht.
  rewrite (drain_with_window t hold b Hwin).
  set (k := expected b) in *. set (l := pending b) in *.
  destruct (first_position_Some l Hne) as [k' Hfp].
  destruct (first_position_In _ _ Hfp) as (c & Hc & Hts).
  assert (Hkk' : k < k').
  { apply (filter_nil_inv _ _ c) in Hhole; [|assumption].
    apply N.eqb_neq in Hhole. specialize (Hwin c Hc). lia. }
  assert (Hlen : List.length l <> O) by (destruct l; [contradiction | discriminate]).
  assert (Hat : at_position k' l <> []).
  { intros Hnil. apply (filter_nil_inv _ _ c) in Hnil; [|assumption].
    apply N.eqb_neq in Hnil. contradiction. }
  destruct (drain_loop t hold (List.length l) k' l) as [[out3 p3] l3] eqn:Hrec.
  destruct (drain_loop_head _ _ _ _ _ _ _ _ Hok Hat Hlen Hrec) as (Hfirst & _ & Hsome).
  exists k', out3.
  rewrite (drain_loop_gap_first t hold (List.length l) k k' l Hwin Hhole Hfp Ht), Hrec.
  simpl. repeat split; assumption.
Qed.

(** A drain of a buffer that stores a chunk at the expected position:
    after the late chunks, the first thing it emits is the segment of that
    chunk; if it emits nothing but late chunks, the chunk is held back, at
    the same expected position; if nothing is ever held back, it does emit
    the segment. *)
Lemma drain_with_head (t : list chunk -> bool) (hold : list chunk -> N -> N)
      (b : buffer) (out : list output) (b' : buffer) :
  hold_ok hold ->
  head_ready b ->
  drain_with t hold b = (out, b') ->
  exists out1,
    out = segment (behind (expected b) (pending b)) ++ out1 /\
    segment_first_at (expected b) out1 /\
    (out1 = [] -> expected b' = expected b /\ head_ready b') /\
    ((forall run0 p1, hold run0 p1 = p1) -> out1 <> []).
Proof.
  unfold head_ready, Reassembly.drain_with. intros Hok Hready H.
  set (k := expected b) in *. set (l := from_position k (pending b)) in *.
  destruct (drain_loop t hold (S (List.length l)) k l) as [[out1 p1] l1] eqn:Hloop.
  injection H as <- <-. simpl.
  pose proof (window_from_position k (pending b)) as Hwin. fold l in Hwin.
  assert (Hat : at_position k l <> []).
  { unfold l. rewrite at_position_from_position by lia. assumption. }
  destruct (drain_loop_head _ _ _ _ _ _ _ _ Hok Hat (Nat.neq_succ_0 _) Hloop)
    as (Hfirst & Hnone & Hsome).
  destruct (drain_loop_spec _ _ _ _ _ _ _ _ Hok Hwin Hloop) as (_ & Hl1 & _).
  exists out1. split; [reflexivity|]. repeat split; try assumption.
  - apply Hnone. assumption.
  - rewrite Hl1, (Hnone H). unfold l. rewrite from_position_from_position by lia.
    rewrite at_position_from_position by lia. assumption.
Qed.

(** The same, for what the sink sees: no gap marker comes before the
    segment of the expected chunk, and either that segment is emitted or
    the chunk stays at the expected position. *)
Lemma drain_with_waits (t : list chunk -> bool) (hold : list chunk -> N -> N)
      (b : buffer) (out : list output) (b' : buffer) :
  hold_ok hold ->
  head_ready b ->
  drain_with t hold b = (out, b') ->
  marker_free_until (expected b) out /\
  (segment_reached (expected b) out \/ (expected b' = expected b /\ head_ready b')) /\
  ((forall run0 p1, hold run0 p1 = p1) -> segment_reached (expected b) out).
Proof.
  intros Hok Hready H.
  destruct (drain_with_head t hold b out b' Hok Hready H)
    as (out1 & -> & Hfirst & Hnone & Hsome).
  destruct out1 as [|o1 out1].
  - split; [|split].
    + apply marker_free_until_segment. exact I.
    + right. apply Hnone. reflexivity.
    + intros Hnothing. exfalso. apply (Hsome Hnothing). reflexivity.
  - assert (Hreached : segment_reached (expected b) (o1 :: out1))
      by (apply segment_first_at_reached; [assumption | discriminate]).
    split; [|split].
    + apply marker_free_until_segment, segment_reached_free. assumption.
    + left. apply segment_reached_segment. assumption.
    + intros _. apply segment_reached_segment. assumption.
Qed.

(** ** The stream in the engine *)

Lemma run_evicted (ops : list op) : run ops Evicted = ([], Evicted).
Proof.
  induction ops as [|o ops IH]; [reflexivity|]. simpl.
  assert (Hstep : step o Evicted = ([], Evicted)) by (destruct o; reflexivity).
  rewrite Hstep, IH. reflexivity.
Qed.

Lemma step_evicted (o : op) : step o Evicted = ([], Evicted).
Proof.
  destruct o; reflexivity.
Qed.

Lemma run_app (ops1 ops2 : list op) (s : stream) :
  run (ops1 ++ ops2) s =
  (fst (run ops1 s) ++ fst (run ops2 (snd (run ops1 s))),
   snd (run ops2 (snd (run ops1 s)))).
Proof.
  revert s. induction ops1 as [|o ops1 IH]; intros s; simpl.
  - destruct (run ops2 s). reflexivity.
  - destruct (step o s) as [out1 s1]. rewrite (IH s1).
    destruct (run ops1 s1) as [out2 s2]. simpl.
    rewrite app_assoc. reflexivity.
Qed.

Lemma run_one (o : op) (s : stream) : run [o] s = step o s.
Proof.
  simpl. destruct (step o s) as [out s']. rewrite app_nil_r. reflexivity.
Qed.

(** A run that ends with the eviction ends with the stream evicted. *)
Lemma run_ends_evicted (ops : list op) (s : stream) :
  snd (run (ops ++ [Evict]) s) = Evicted.
Proof.
  rewrite run_app. cbn [snd]. rewrite run_one.
  destruct (snd (run ops s)) as [b|]; reflexivity.
Qed.

(** *** Nothing is lost and nothing is made up *)

(** The chunks an operation hands over and the chunks that stay stored
    are the chunks that were stored and the chunk the operation stores. *)
Lemma step_conserved (o : op) (s : stream) :
  Permutation (emitted (fst (step o s)) ++ stream_pending (snd (step o s)))
              (stream_pending s ++ stored_by o s).
Proof.
  destruct s as [b|]; [|rewrite step_evicted; destruct o; reflexivity].
  destruct o as [now e | now |]; simpl.
  - destruct (well_formed e); simpl; [|rewrite app_nil_r; reflexivity].
    destruct (drain_ready now (insert now e b)) as [out1 b1] eqn:Hdrain.
    destruct (drain_with_spec _ _ _ _ _ (held_from_ok _) Hdrain)
      as (_ & _ & _ & Hperm & _).
    rewrite insert_pending_eq in Hperm.
    assert (Hstored : (if negb (present e b)
                       then [{| ck_event := e; ck_received := now |}] else []) =
                      (if present e b then [] else [{| ck_event := e; ck_received := now |}]))
      by (destruct (present e b); reflexivity).
    rewrite Hstored.
    destruct (_ <? _)%nat; simpl.
    + rewrite app_nil_r, emitted_app, <- Hperm.
      apply Permutation_app_head. apply flush_emits_all.
    + exact Hperm.
  - destruct (drain_ready now b) as [out1 b1] eqn:Hdrain. simpl.
    destruct (drain_with_spec _ _ _ _ _ (held_from_ok _) Hdrain)
      as (_ & _ & _ & Hperm & _).
    rewrite app_nil_r. exact Hperm.
  - rewrite !app_nil_r. apply flush_emits_all.
Qed.

Lemma run_conserved (ops : list op) (s : stream) :
  Permutation (emitted (fst (run ops s)) ++ stream_pending (snd (run ops s)))
              (stream_pending s ++ accepted ops s).
Proof.
  revert s. induction ops as [|o ops IH]; intros s; simpl.
  - rewrite app_nil_r. reflexivity.
  - pose proof (step_conserved o s) as Hstep.
    destruct (step o s) as [out1 s1]. simpl in *.
    specialize (IH s1). destruct (run ops s1) as [out2 s2]. simpl in *.
    rewrite emitted_app, <- app_assoc, IH, !app_assoc.
    apply Permutation_app_tail. exact Hstep.
Qed.

(** A chunk that a stream hands over was stored in its buffer or is the
    chunk of an event it ingests. *)
Lemma stored_by_event (o : op) (s : stream) (c : chunk) :
  In c (stored_by o s) -> o = Ingest (ck_received c) (ck_event c).
Proof.
  destruct o as [now e | now |], s as [b|]; simpl; try tauto.
  destruct (well_formed e && negb (present e b))%bool; simpl; [|tauto].
  intros [<- | []]. reflexivity.
Qed.

Lemma accepted_event (ops : list op) (s : stream) (c : chunk) :
  In c (accepted ops s) -> In (Ingest (ck_received c) (ck_event c)) ops.
Proof.
  revert s. induction ops as [|o ops IH]; intros s; simpl; [tauto|].
  intros Hc. apply in_app_or in Hc. destruct Hc as [Hc | Hc].
  - left. apply stored_by_event in Hc. assumption.
  - right. apply (IH _ Hc).
Qed.

Lemma run_emitted_from (ops : list op) (s : stream) (c : chunk) :
  In c (emitted (fst (run ops s))) ->
  In c (stream_pending s) \/ In (Ingest (ck_received c) (ck_event c)) ops.
Proof.
  intros Hc.
  assert (Hin : In c (emitted (fst (run ops s)) ++ stream_pending (snd (run ops s))))
    by (apply in_or_app; left; assumption).
  apply (Permutation_in _ (run_conserved ops s)) in Hin.
  apply in_app_or in Hin. destruct Hin as [Hin | Hin]; [left; assumption|].
  right. apply (accepted_event _ _ _ Hin).
Qed.

(** *** No chunk twice *)

Lemma stream_inv_fresh (start : N) : stream_inv (Live (fresh start)) [].
Proof.
  split; [constructor|]. split; [reflexivity | constructor].
Qed.

Lemma insert_inv (now : N) (e : capture_event) (b : buffer) (E : list chunk) :
  stream_inv (Live b) E -> stream_inv (Live (insert now e b)) E.
Proof.
  intros (Hd & Hdel & Hnd). split; [assumption|].
  rewrite insert_delivered, insert_pending_eq. split; [assumption|].
  destruct (present e b) eqn:Hp; [rewrite app_nil_r; assumption|].
  rewrite map_app, app_assoc. simpl.
  apply NoDup_app; [assumption | repeat constructor; intros [] |].
  intros k Hk [<- | []].
  apply (proj2 (present_true e b)) in Hk. congruence.
Qed.

Lemma count_duplicate_inv (b : buffer) (E : list chunk) :
  stream_inv (Live b) E -> stream_inv (Live (count_duplicate b)) E.
Proof.
  intros H. exact H.
Qed.

Lemma drain_with_inv (t : list chunk -> bool) (hold : list chunk -> N -> N)
      (b b' : buffer) (out : list output) (E : list chunk) :
  hold_ok hold ->
  drain_with t hold b = (out, b') ->
  stream_inv (Live b) E ->
  stream_inv (Live b') (E ++ emitted out).
Proof.
  intros Hok H (Hd & Hdel & Hnd).
  destruct (drain_with_spec t hold b out b' Hok H)
    as (_ & _ & _ & Hperm & Hdel' & _).
  assert (Hall : NoDup (delivered b' ++ map key (pending b'))).
  { rewrite Hdel', <- app_assoc, <- map_app.
    apply Permutation_NoDup with (l := delivered b ++ map key (pending b)); [|assumption].
    apply Permutation_app_head, Permutation_map. symmetry. assumption. }
  assert (Hkeys : delivered b' = map key (E ++ emitted out))
    by (rewrite Hdel', Hdel, map_app; reflexivity).
  split; [|split; assumption].
  unfold Reassembly.distinct_keys. rewrite <- Hkeys.
  apply NoDup_app_remove_r in Hall. assumption.
Qed.

Lemma stream_inv_evicted (s : stream) (E : list chunk) :
  stream_inv s E -> stream_inv Evicted E.
Proof.
  intros (Hd & _). split; [assumption | exact I].
Qed.

Lemma step_inv (o : op) (s s' : stream) (out : list output) (E : list chunk) :
  step o s = (out, s') ->
  stream_inv s E ->
  stream_inv s' (E ++ emitted out).
Proof.
  intros Hstep Hinv. destruct s as [b|].
  - destruct o as [now e | now |]; simpl in Hstep.
    + destruct (well_formed e).
      * destruct (drain_ready now (insert now e b)) as [out1 b1] eqn:Hdrain.
        pose proof (drain_with_inv _ _ _ _ _ E (held_from_ok _) Hdrain
                      (insert_inv now e b E Hinv)) as Hinv1.
        destruct (_ <? _)%nat.
        -- injection Hstep as <- <-.
           destruct (flush b1) as [out2 b2] eqn:Hflush. simpl.
           rewrite emitted_app, app_assoc.
           apply stream_inv_evicted with (s := Live b2).
           apply (drain_with_inv _ _ _ _ _ _ hold_nothing_ok Hflush Hinv1).
        -- injection Hstep as <- <-. assumption.
      * injection Hstep as <- <-. simpl. rewrite app_nil_r. assumption.
    + destruct (drain_ready now b) as [out1 b1] eqn:Hdrain.
      injection Hstep as <- <-.
      apply (drain_with_inv _ _ _ _ _ E (held_from_ok _) Hdrain Hinv).
    + injection Hstep as <- <-. destruct (flush b) as [out2 b2] eqn:Hflush. simpl.
      apply stream_inv_evicted with (s := Live b2).
      apply (drain_with_inv _ _ _ _ _ _ hold_nothing_ok Hflush Hinv).
  - rewrite step_evicted in Hstep. injection Hstep as <- <-.
    simpl. rewrite app_nil_r. assumption.
Qed.

Lemma run_inv (ops : list op) (s s' : stream) (out : list output) (E : list chunk) :
  run ops s = (out, s') ->
  stream_inv s E ->
  stream_inv s' (E ++ emitted out).
Proof.
  revert s out E. induction ops as [|o ops IH]; intros s out E Hrun Hinv; simpl in Hrun.
  - injection Hrun as <- <-. simpl. rewrite app_nil_r. assumption.
  - destruct (step o s) as [out1 s1] eqn:Hstep.
    destruct (run ops s1) as [out2 s2] eqn:Hrest.
    injection Hrun as <- <-. rewrite emitted_app, app_assoc.
    apply (IH _ _ _ Hrest). apply (step_inv _ _ _ _ _ Hstep Hinv).
Qed.

Lemma distinct_keys_payloads (l : list chunk) :
  distinct_keys l -> NoDup (map (fun c => (ck_ts c, ck_payload c)) l).
Proof.
  unfold Reassembly.distinct_keys. intros H.
  apply NoDup_map_inv with (f := fun tp : N * list Byte.byte => (fst tp, payload_hash (snd tp))).
  rewrite map_map. exact H.
Qed.

(** The bytes the sink is handed are the payloads of the emitted chunks,
    in the order of emission. *)
Lemma to_sink_bytes (g : bool) (out : list output) :
  List.concat (map fst (to_sink g out)) = segment_bytes (emitted out).
Proof.
  revert g. induction out as [|o out IH]; intros g; [reflexivity|].
  destruct o as [parts | a b]; simpl.
  - rewrite IH. unfold segment_bytes. rewrite map_app, concat_app. reflexivity.
  - apply IH.
Qed.

(** *** The order of what is handed over *)

Lemma stream_ahead_fresh (start : N) : stream_ahead (Live (fresh start)) [].
Proof.
  split; intros c [].
Qed.

Lemma drain_with_stream_ahead (t : list chunk -> bool) (hold : list chunk -> N -> N)
      (b b1 : buffer) (out : list output) (E : list chunk) :
  hold_ok hold ->
  drain_with t hold b = (out, b1) ->
  (forall c, In c E -> ck_ts c < expected b) ->
  stream_ahead (Live b1) (E ++ emitted out).
Proof.
  intros Hok H HE.
  destruct (drain_with_ahead _ _ _ _ _ Hok H) as (Hwin & Hout).
  destruct (drain_with_spec _ _ _ _ _ Hok H) as (_ & Hle & _).
  split; [assumption|].
  intros c Hc. apply in_app_or in Hc. destruct Hc as [Hc | Hc].
  - apply HE in Hc. lia.
  - apply Hout. assumption.
Qed.

Lemma step_ahead (o : op) (s s' : stream) (out : list output) (E : list chunk) :
  step o s = (out, s') ->
  stream_ahead s E ->
  stream_ahead s' (E ++ emitted out).
Proof.
  intros Hstep Hinv. destruct s as [b|].
  - destruct Hinv as [Hwin HE]. destruct o as [now e | now |]; simpl in Hstep.
    + destruct (well_formed e).
      * destruct (drain_ready now (insert now e b)) as [out1 b1] eqn:Hdrain.
        destruct (_ <? _)%nat; injection Hstep as <- <-; [exact I|].
        apply (drain_with_stream_ahead (aged cfg now) hold_back
                 (insert now e b) b1 out1 E (held_from_ok _) Hdrain).
        rewrite insert_expected. assumption.
      * injection Hstep as <- <-. simpl. rewrite app_nil_r. split; assumption.
    + destruct (drain_ready now b) as [out1 b1] eqn:Hdrain.
      injection Hstep as <- <-.
      apply (drain_with_stream_ahead (aged cfg now) hold_back
               b b1 out1 E (held_from_ok _) Hdrain HE).
    + injection Hstep as <- <-. exact I.
  - rewrite step_evicted in Hstep. injection Hstep as <- <-. exact I.
Qed.

Lemma run_ahead (ops : list op) (s s' : stream) (out : list output) (E : list chunk) :
  run ops s = (out, s') ->
  stream_ahead s E ->
  stream_ahead s' (E ++ emitted out).
Proof.
  revert s out E. induction ops as [|o ops IH]; intros s out E Hrun Hinv; simpl in Hrun.
  - injection Hrun as <- <-. simpl. rewrite app_nil_r. assumption.
  - destruct (step o s) as [out1 s1] eqn:Hstep.
    destruct (run ops s1) as [out2 s2] eqn:Hrest.
    injection Hrun as <- <-. rewrite emitted_app, app_assoc.
    apply (IH _ _ _ Hrest). apply (step_ahead _ _ _ _ _ Hstep Hinv).
Qed.

(** What one operation hands over, on a buffer that stores nothing behind
    its expected position: first the chunk of the event it ingests, if
    that is late, then chunks of the window in position order. *)
Lemma step_shape (o : op) (b : buffer) (out : list output) (s' : stream) :
  window (expected b) (pending b) ->
  step o (Live b) = (out, s') ->
  exists late W,
    emitted out = late ++ W /\
    ordered W /\
    (forall c, In c W -> expected b <= ck_ts c) /\
    (forall c, In c late ->
               ck_ts c < expected b /\ o = Ingest (ck_received c) (ck_event c)).
Proof.
  intros Hwin Hstep.
  assert (Hdrain_shape :
    forall t hold b0 out0 b1,
      hold_ok hold -> window (expected b0) (pending b0) ->
      Reassembly.drain_with payload_hash t hold b0 = (out0, b1) ->
      ordered (emitted out0) /\
      forall c, In c (emitted out0) -> expected b0 <= ck_ts c < expected b1).
  { intros t hold b0 out0 b1 Hok Hwin0 H0.
    destruct (drain_with_spec _ _ _ _ _ Hok H0) as ((W & Hout & Hord & Hb) & _).
    rewrite (behind_window _ _ Hwin0) in Hout. simpl in Hout. rewrite Hout.
    split; assumption. }
  destruct o as [now e | now |]; simpl in Hstep.
  - destruct (well_formed e).
    + destruct (drain_ready now (insert now e b)) as [out1 b1] eqn:Hdrain.
      destruct (drain_with_spec _ _ _ _ _ (held_from_ok _) Hdrain)
        as ((W & Hout & Hord & Hb) & Hle & _).
      destruct (drain_with_ahead _ _ _ _ _ (held_from_ok _) Hdrain) as (Hwin1 & _).
      rewrite insert_expected in Hout, Hb, Hle.
      rewrite insert_pending_eq, behind_app, (behind_window _ _ Hwin) in Hout.
      simpl in Hout.
      assert (Hlate : forall c,
                In c (behind (expected b)
                        (if present e b then []
                         else [{| ck_event := e; ck_received := now |}])) ->
                ck_ts c < expected b /\ Ingest now e = Ingest (ck_received c) (ck_event c)).
      { intros c Hc. apply behind_In in Hc. destruct Hc as [Hc Hlt].
        split; [assumption|].
        destruct (present e b); [destruct Hc|].
        destruct Hc as [<- | []]. reflexivity. }
      destruct (_ <? _)%nat; injection Hstep as <- <-.
      * destruct (flush b1) as [out2 b2] eqn:Hflush. simpl.
        destruct (Hdrain_shape _ _ _ _ _ hold_nothing_ok Hwin1 Hflush) as (Hord2 & Hb2).
        eexists. exists (W ++ emitted out2).
        rewrite emitted_app, Hout, <- app_assoc.
        split; [reflexivity|]. split; [|split; [|exact Hlate]].
        -- apply StronglySorted_app; [assumption | assumption |].
           intros x y Hx Hy. apply Hb in Hx. apply Hb2 in Hy. lia.
        -- intros c Hc. apply in_app_or in Hc. destruct Hc as [Hc | Hc].
           ++ apply Hb in Hc. lia.
           ++ apply Hb2 in Hc. lia.
      * eexists. exists W. split; [exact Hout|]. split; [assumption|].
        split; [|exact Hlate]. intros c Hc. apply Hb in Hc. lia.
    + injection Hstep as <- <-. exists [], []. simpl.
      split; [reflexivity|]. split; [constructor|]. split; intros c [].
  - destruct (drain_ready now b) as [out1 b1] eqn:Hdrain.
    injection Hstep as <- <-.
    destruct (Hdrain_shape _ _ _ _ _ (held_from_ok _) Hwin Hdrain) as (Hord & Hb).
    exists [], (emitted out1). split; [reflexivity|]. split; [assumption|].
    split; [|intros c []]. intros c Hc. apply Hb in Hc. lia.
  - injection Hstep as <- <-.
    destruct (flush b) as [out2 b2] eqn:Hflush. simpl.
    destruct (Hdrain_shape _ _ _ _ _ hold_nothing_ok Hwin Hflush) as (Hord & Hb).
    exists [], (emitted out2). split; [reflexivity|]. split; [assumption|].
    split; [|intros c []]. intros c Hc. apply Hb in Hc. lia.
Qed.

Lemma arrived_after_more (ops : list op) (o : op) (s : stream) (c1 c2 : chunk) :
  arrived_after ops s c1 c2 -> arrived_after (ops ++ [o]) s c1 c2.
Proof.
  intros (ops1 & ops2 & -> & Hc1). exists ops1, (ops2 ++ [o]).
  split; [|assumption]. rewrite <- app_assoc. reflexivity.
Qed.

(** From the creation of a stream on, what it hands over is in timestamp
    order up to late arrivals. *)
Lemma run_ordered (start : N) (ops : list op) :
  ordered_up_to_late_arrivals ops (Live (fresh start))
    (emitted (fst (run ops (Live (fresh start))))).
Proof.
  unfold Reassembly.ordered_up_to_late_arrivals.
  induction ops as [|o ops IH] using rev_ind; [constructor|].
  rewrite run_app, run_one. simpl.
  destruct (run ops (Live (fresh start))) as [out s1] eqn:Hrun. simpl in *.
  pose proof (run_ahead _ _ _ _ [] Hrun (stream_ahead_fresh start)) as Hahead.
  simpl in Hahead.
  destruct (step o s1) as [out1 s2] eqn:Hstep. simpl.
  rewrite emitted_app.
  assert (Hold : StronglySorted
                   (fun c1 c2 => ck_ts c1 <= ck_ts c2 \/
                                 arrived_after (ops ++ [o]) (Live (fresh start)) c1 c2)
                   (emitted out)).
  { apply StronglySorted_impl with (2 := IH).
    intros x y _ _ [H | H]; [left; assumption | right].
    apply arrived_after_more. assumption. }
  destruct s1 as [b|].
  - destruct Hahead as [Hwin HE].
    destruct (step_shape o b out1 s2 Hwin Hstep) as (late & W & -> & Hord & HW & Hlate).
    apply StronglySorted_app; [assumption | |].
    + apply StronglySorted_app.
      * apply StronglySorted_all. intros x y Hx Hy. left.
        destruct (Hlate x Hx) as [_ Hox]. destruct (Hlate y Hy) as [_ Hoy].
        rewrite Hox in Hoy. injection Hoy as _ He. unfold ck_ts. rewrite He. reflexivity.
      * apply StronglySorted_impl with (2 := Hord). intros x y _ _ H. left. exact H.
      * intros x y Hx Hy. left. apply Hlate in Hx. apply HW in Hy. lia.
    + intros x y Hx Hy. apply in_app_or in Hy. destruct Hy as [Hy | Hy].
      * right. destruct (Hlate y Hy) as [_ Ho]. exists ops, [].
        split; [rewrite Ho; reflexivity|]. rewrite Hrun. assumption.
      * left. apply HE in Hx. apply HW in Hy. lia.
  - rewrite step_evicted in Hstep. injection Hstep as <- <-. simpl.
    rewrite app_nil_r. assumption.
Qed.

(** *** After a gap marker *)

Lemma insert_head_ready (now : N) (e : capture_event) (b : buffer) :
  head_ready b -> head_ready (insert now e b).
Proof.
  unfold head_ready. rewrite insert_expected. intros Hready Hnil. apply Hready.
  apply filter_none. intros c Hc. apply (filter_nil_inv _ _ c Hnil).
  apply insert_pending. assumption.
Qed.

(** A stream that stores a chunk at its expected position [p]: no gap
    marker comes before the segment of that chunk, whenever that segment
    is emitted. *)
Lemma step_head (o : op) (b : buffer) (out : list output) (s' : stream) :
  head_ready b ->
  step o (Live b) = (out, s') ->
  marker_free_until (expected b) out /\
  (segment_reached (expected b) out \/
   exists b', s' = Live b' /\ expected b' = expected b /\ head_ready b').
Proof.
  intros Hready Hstep. destruct o as [now e | now |]; simpl in Hstep.
  - destruct (well_formed e).
    + destruct (drain_ready now (insert now e b)) as [out1 b1] eqn:Hdrain.
      destruct (drain_with_waits _ _ _ _ _ (held_from_ok _)
                  (insert_head_ready now e b Hready) Hdrain) as (Hfree & Hnext & _).
      rewrite insert_expected in Hfree, Hnext.
      destruct (_ <? _)%nat; injection Hstep as <- <-.
      * destruct Hnext as [Hreached | [Hexp Hready1]].
        -- split; [|left]; [apply segment_reached_free|]; apply segment_reached_app;
             assumption.
        -- destruct (flush b1) as [out2 b2] eqn:Hflush. simpl.
           destruct (drain_with_waits _ _ _ _ _ hold_nothing_ok Hready1 Hflush)
             as (Hfree2 & _ & Hsome).
           rewrite Hexp in Hfree2, Hsome.
           split.
           ++ apply marker_free_until_app; [assumption|]. right. assumption.
           ++ left.
              assert (Hr2 : segment_reached (expected b) out2) by (apply Hsome; reflexivity).
              clear - Hfree Hr2. induction out1 as [|[seg | a z] out1 IH]; simpl in *.
              ** assumption.
              ** destruct Hfree as [H | H]; [left; assumption | right; apply IH; assumption].
              ** contradiction.
      * split; [assumption|]. destruct Hnext as [H | H]; [left; assumption | right].
        exists b1. split; [reflexivity | assumption].
    + injection Hstep as <- <-. split; [exact I|]. right.
      exists b. repeat split. assumption.
  - destruct (drain_ready now b) as [out1 b1] eqn:Hdrain.
    destruct (drain_with_waits _ _ _ _ _ (held_from_ok _) Hready Hdrain)
      as (Hfree & Hnext & _).
    injection Hstep as <- <-. split; [assumption|].
    destruct Hnext as [H | H]; [left; assumption | right].
    exists b1. split; [reflexivity | assumption].
  - injection Hstep as <- <-.
    destruct (flush b) as [out2 b2] eqn:Hflush. simpl.
    destruct (drain_with_waits _ _ _ _ _ hold_nothing_ok Hready Hflush)
      as (Hfree2 & _ & Hsome).
    split; [assumption|]. left. apply Hsome. reflexivity.
Qed.

Lemma run_head (ops : list op) (b : buffer) :
  head_ready b -> marker_free_until (expected b) (fst (run ops (Live b))).
Proof.
  revert b. induction ops as [|o ops IH]; intros b Hready; simpl; [exact I|].
  destruct (step o (Live b)) as [out1 s1] eqn:Hstep.
  destruct (step_head _ _ _ _ Hready Hstep) as (Hfree & Hnext).
  destruct Hnext as [Hreached | (b1 & -> & Hexp & Hready1)].
  - destruct (run ops s1) as [out2 s2]. simpl.
    apply marker_free_until_app; [assumption | left; assumption].
  - specialize (IH b1 Hready1). rewrite Hexp in IH.
    destruct (run ops (Live b1)) as [out2 s2]. simpl in *.
    apply marker_free_until_app; [assumption | right; assumption].
Qed.

(** Whatever happens to a stream later, its gap markers name holes at or
    after its expected position. *)
Lemma step_gaps_ahead (o : op) (b : buffer) (out : list output) (s' : stream) :
  step o (Live b) = (out, s') ->
  (forall a z, In (GapMarker a z) out -> expected b <= a) /\
  match s' with
  | Live b' => expected b <= expected b'
  | Evicted => True
  end.
Proof.
  intros Hstep. destruct o as [now e | now |]; simpl in Hstep.
  - destruct (well_formed e).
    + destruct (drain_ready now (insert now e b)) as [out1 b1] eqn:Hdrain.
      destruct (drain_with_spec _ _ _ _ _ (held_from_ok _) Hdrain)
        as (_ & Hle & _ & _ & _ & _ & Hgaps).
      rewrite insert_expected in Hle, Hgaps.
      destruct (_ <? _)%nat; injection Hstep as <- <-.
      * split; [|exact I].
        destruct (flush b1) as [out2 b2] eqn:Hflush. simpl.
        destruct (drain_with_spec _ _ _ _ _ hold_nothing_ok Hflush)
          as (_ & _ & _ & _ & _ & _ & Hgaps2).
        intros a z Hin. apply in_app_or in Hin.
        destruct Hin as [Hin | Hin]; [apply Hgaps in Hin | apply Hgaps2 in Hin]; lia.
      * split; [|assumption]. intros a z Hin. apply Hgaps in Hin. lia.
    + injection Hstep as <- <-. split; [intros a z []|]. reflexivity.
  - destruct (drain_ready now b) as [out1 b1] eqn:Hdrain.
    destruct (drain_with_spec _ _ _ _ _ (held_from_ok _) Hdrain)
      as (_ & Hle & _ & _ & _ & _ & Hgaps).
    injection Hstep as <- <-. split; [|assumption].
    intros a z Hin. apply Hgaps in Hin. lia.
  - injection Hstep as <- <-. split; [|exact I].
    destruct (flush b) as [out2 b2] eqn:Hflush. simpl.
    destruct (drain_with_spec _ _ _ _ _ hold_nothing_ok Hflush)
      as (_ & _ & _ & _ & _ & _ & Hgaps2).
    intros a z Hin. apply Hgaps2 in Hin. lia.
Qed.

Lemma run_gaps_ahead (ops : list op) (b : buffer) (a z : N) :
  In (GapMarker a z) (fst (run ops (Live b))) -> expected b <= a.
Proof.
  revert b. induction ops as [|o ops IH]; intros b; simpl; [intros []|].
  destruct (step o (Live b)) as [out1 s1] eqn:Hstep.
  destruct (step_gaps_ahead _ _ _ _ Hstep) as (Hb & Hs1).
  destruct s1 as [b1|].
  - specialize (IH b1). destruct (run ops (Live b1)) as [out2 s2].
    simpl in *. intros Hin. apply in_app_or in Hin.
    destruct Hin as [Hin | Hin]; [apply (Hb a z); assumption|]. apply IH in Hin. lia.
  - rewrite run_evicted. simpl. rewrite app_nil_r. apply Hb.
Qed.

(** ** The bound on the buffered bytes *)

(** The bytes a stream buffers never grow in a drain. *)
Lemma drain_with_bytes (t : list chunk -> bool) (hold : list chunk -> N -> N) (b : buffer) :
  hold_ok hold ->
  (buffered_bytes (pending (snd (drain_with t hold b))) <= buffered_bytes (pending b))%nat.
Proof.
  intros Hok. destruct (drain_with t hold b) as [out b'] eqn:H.
  destruct (drain_with_spec _ _ _ _ _ Hok H) as (_ & _ & Hpend & _). simpl.
  rewrite Hpend. apply buffered_bytes_filter.
Qed.

Lemma step_bounded (o : op) (s : stream) :
  (stream_bytes s <= max_buffered_bytes_per_stream cfg)%nat ->
  (stream_bytes (snd (step o s)) <= max_buffered_bytes_per_stream cfg)%nat.
Proof.
  intros Hs. destruct s as [b|]; [|destruct o; simpl; lia].
  destruct o as [now e | now |]; simpl.
  - destruct (well_formed e); [|assumption].
    destruct (drain_ready now (insert now e b)) as [out1 b1].
    destruct (_ <? _)%nat eqn:Hmax; simpl; [lia|].
    apply Nat.ltb_ge in Hmax. assumption.
  - pose proof (drain_with_bytes (aged cfg now) hold_back b (held_from_ok _)) as Hle.
    unfold Reassembly.drain_ready.
    destruct (drain_with (aged cfg now) hold_back b) as [out1 b1]. simpl in *. lia.
  - lia.
Qed.

Lemma run_bounded (ops : list op) (s : stream) :
  (stream_bytes s <= max_buffered_bytes_per_stream cfg)%nat ->
  (stream_bytes (snd (run ops s)) <= max_buffered_bytes_per_stream cfg)%nat.
Proof.
  revert s. induction ops as [|o ops IH]; intros s Hs; simpl; [assumption|].
  pose proof (step_bounded o s Hs) as Hstep.
  destruct (step o s) as [out1 s1]. simpl in Hstep.
  specialize (IH s1 Hstep). destruct (run ops s1) as [out2 s2].
  assumption.
Qed.

(** Between the insert and the drain attempt of an [ingest] the buffer is
    over the ceiling by at most one chunk. *)
Lemma insert_bytes (now : N) (e : capture_event) (b : buffer) :
  well_formed e = true ->
  (buffered_bytes (pending (insert now e b)) <= buffered_bytes (pending b) + MAX_CHUNK)%nat.
Proof.
  intros Hwf. apply Nat.leb_le in Hwf. rewrite insert_pending_eq, buffered_bytes_app.
  destruct (present e b); unfold buffered_bytes at 2; simpl; [lia|].
  unfold ck_payload. simpl. lia.
Qed.

(** The flush of a buffer that is not empty and holds nothing behind its
    expected position starts with the gap marker of the hole it was
    waiting at, or with the segment of the chunks it held back. *)
Lemma flush_progress (b : buffer) :
  window (expected b) (pending b) ->
  pending b <> [] ->
  (exists k' rest, fst (flush b) = GapMarker (expected b) k' :: rest /\
                   expected b < k' /\ rest <> [] /\ segment_first_at k' rest) \/
  (exists seg rest, fst (flush b) = Segment seg :: rest /\
                    exists c, In c seg /\ ck_ts c = expected b).
Proof.
  intros Hwin Hne.
  destruct (at_position (expected b) (pending b)) as [|c here] eqn:Hat.
  - left.
    destruct (drain_with_gap (fun _ => true) hold_nothing b hold_nothing_ok
                Hwin Hat Hne eq_refl)
      as (k' & rest & Hflush & Hlt & Hfirst & Hsome).
    exists k', rest. unfold Reassembly.flush. rewrite Hflush.
    repeat split; try assumption. apply Hsome. reflexivity.
  - right.
    assert (Hready : head_ready b) by (unfold head_ready; rewrite Hat; discriminate).
    destruct (flush b) as [out b'] eqn:Hflush.
    destruct (drain_with_head _ _ _ _ _ hold_nothing_ok Hready Hflush)
      as (out1 & Hout & Hfirst & _ & Hsome).
    rewrite (behind_window _ _ Hwin) in Hout. simpl in *. subst out1.
    destruct out as [|[seg | a z] out].
    + exfalso. apply Hsome; reflexivity.
    + exists seg, out. split; [reflexivity | exact Hfirst].
    + destruct Hfirst.
Qed.

(** ** Duplicates *)

Lemma insert_twice_eq (now1 now2 : N) (e : capture_event) (b : buffer) :
  insert now2 e (insert now1 e b) = count_duplicate (insert now1 e b).
Proof.
  unfold Reassembly.insert at 1. rewrite insert_present. reflexivity.
Qed.

Lemma drain_with_same_data (t : list chunk -> bool) (hold : list chunk -> N -> N)
      (b1 b2 : buffer) :
  same_data (Live b1) (Live b2) ->
  fst (drain_with t hold b1) = fst (drain_with t hold b2) /\
  same_data (Live (snd (drain_with t hold b1))) (Live (snd (drain_with t hold b2))).
Proof.
  intros (Hp & He & Hd). unfold Reassembly.drain_with. rewrite Hp, He, Hd.
  destruct (drain_loop _ _ _ _ _) as [[out p] l]. simpl. repeat split.
Qed.

Lemma insert_same_data (now : N) (e : capture_event) (b1 b2 : buffer) :
  same_data (Live b1) (Live b2) ->
  same_data (Live (insert now e b1)) (Live (insert now e b2)).
Proof.
  intros (Hp & He & Hd). unfold Reassembly.insert, Reassembly.present.
  rewrite Hp, He, Hd. destruct (_ || _)%bool; simpl; repeat split.
Qed.

Lemma step_same_data (o : op) (s1 s2 : stream) :
  same_data s1 s2 ->
  fst (step o s1) = fst (step o s2) /\
  same_data (snd (step o s1)) (snd (step o s2)).
Proof.
  intros Hs. destruct s1 as [b1|], s2 as [b2|]; simpl in Hs; try contradiction.
  - destruct o as [now e | now |]; simpl.
    + destruct (well_formed e); [|simpl; tauto].
      pose proof (insert_same_data now e b1 b2 Hs) as Hs1.
      destruct (drain_with_same_data (aged cfg now) hold_back _ _ Hs1) as (Hout & Hs2).
      unfold Reassembly.drain_ready.
      destruct (drain_with (aged cfg now) hold_back (insert now e b1)) as [out1 c1].
      destruct (drain_with (aged cfg now) hold_back (insert now e b2)) as [out2 c2].
      simpl in Hout, Hs2. subst out2.
      destruct (drain_with_same_data (fun _ => true) hold_nothing _ _ Hs2) as (Hfl & _).
      destruct Hs2 as (Hp2 & He2 & Hd2). rewrite Hp2.
      destruct (_ <? _)%nat; simpl; [|tauto].
      unfold Reassembly.flush. rewrite Hfl. tauto.
    + destruct (drain_with_same_data (aged cfg now) hold_back _ _ Hs) as (Hout & Hs2).
      unfold Reassembly.drain_ready.
      destruct (drain_with (aged cfg now) hold_back b1) as [out1 c1].
      destruct (drain_with (aged cfg now) hold_back b2) as [out2 c2].
      simpl in *. tauto.
    + destruct (drain_with_same_data (fun _ => true) hold_nothing _ _ Hs) as (Hfl & _).
      unfold Reassembly.flush. rewrite Hfl. tauto.
  - destruct o; simpl; tauto.
Qed.

Lemma run_same_data (ops : list op) (s1 s2 : stream) :
  same_data s1 s2 -> fst (run ops s1) = fst (run ops s2).
Proof.
  revert s1 s2. induction ops as [|o ops IH]; intros s1 s2 Hs; simpl; [reflexivity|].
  destruct (step_same_data o s1 s2 Hs) as [Hout Hs'].
  destruct (step o s1) as [out1 t1].
  destruct (step o s2) as [out2 t2].
  simpl in *. specialize (IH t1 t2 Hs').
  destruct (run ops t1) as [out1' u1].
  destruct (run ops t2) as [out2' u2].
  simpl in *. congruence.
Qed.

Lemma stored_once (e : capture_event) (l : list chunk) :
  distinct_keys l ->
  In (key_of e) (map key l) ->
  List.length (filter (same_key e) l) = 1%nat.
Proof.
  unfold Reassembly.distinct_keys. induction l as [|a l IH]; intros Hnd Hex; [destruct Hex|].
  simpl in *. apply NoDup_cons_iff in Hnd as [Hnotin Hnd].
  destruct (same_key e a) eqn:Ha; simpl.
  - rewrite filter_none; [reflexivity|].
    intros c Hc. destruct (same_key e c) eqn:Hsk; [|reflexivity].
    exfalso. apply Hnotin. apply same_key_true in Ha, Hsk.
    rewrite Ha, <- Hsk. apply in_map. assumption.
  - apply IH; [assumption|]. destruct Hex as [Hex | Hex]; [|assumption].
    apply same_key_true in Hex. congruence.
Qed.

Lemma carries_event_key (e : capture_event) (c : chunk) :
  carries_event e c -> key c = key_of e.
Proof.
  intros [Hts Hp]. unfold Reassembly.key, Reassembly.key_of. rewrite Hts, Hp. reflexivity.
Qed.

(** Among chunks with distinct pairs, under a payload hash that tells any
    two payloads apart, a chunk that has the event's pair is the one
    occurrence of the event's (timestamp, payload). *)
Lemma occurs_once_key (e : capture_event) (l : list chunk) :
  (forall p q, payload_hash p = payload_hash q -> p = q) ->
  distinct_keys l ->
  In (key_of e) (map key l) ->
  occurs_once e l.
Proof.
  intros Hinj Hkeys Hin. apply in_map_iff in Hin as (c & Hkey & Hc).
  apply in_split in Hc as (before & after & ->).
  exists before, c, after. split; [reflexivity|]. split.
  - unfold Reassembly.key, Reassembly.key_of in Hkey. injection Hkey as Hts Hhash.
    split; [assumption | apply Hinj; assumption].
  - intros c' Hc' Hce'. unfold Reassembly.distinct_keys in Hkeys.
    rewrite map_app in Hkeys. simpl in Hkeys. apply NoDup_remove_2 in Hkeys.
    apply Hkeys. rewrite <- map_app.
    rewrite Hkey, <- (carries_event_key e c' Hce').
    apply in_map. assumption.
Qed.

(** The pair of an event that is present stays with the stream: by the
    end of a run that ends with the eviction, a chunk with this pair has
    been handed over. *)
Lemma present_emitted (e : capture_event) (b : buffer) (E : list chunk) (ops : list op) :
  stream_inv (Live b) E ->
  present e b = true ->
  In (key_of e) (map key (E ++ emitted (fst (run (ops ++ [Evict]) (Live b))))).
Proof.
  intros (_ & Hdel & _) Hp. apply present_true in Hp.
  rewrite map_app, in_app_iff. rewrite Hdel in Hp.
  apply in_app_or in Hp. destruct Hp as [Hp | Hp]; [left; assumption | right].
  pose proof (run_conserved (ops ++ [Evict]) (Live b)) as Hcons.
  rewrite run_ends_evicted in Hcons. simpl in Hcons. rewrite app_nil_r in Hcons.
  apply in_map_iff in Hp as (c & Hkey & Hc). apply in_map_iff. exists c.
  split; [assumption|].
  apply (Permutation_in _ (Permutation_sym Hcons)). apply in_or_app. left. assumption.
Qed.

Lemma ordered_timestamps (l : list chunk) :
  ordered l -> StronglySorted N.le (map ck_ts l).
Proof.
  intros H. induction H as [|a l Hl IH Ha]; simpl; constructor; [assumption|].
  apply Forall_forall. intros t Ht. apply in_map_iff in Ht as (c & <- & Hc).
  rewrite Forall_forall in Ha. apply Ha. assumption.
Qed.

(** ** The testable properties *)



(** C4 (bounded memory).  At every point of every run of a stream the
    buffered bytes are at most [max_buffered_bytes_per_stream].  An event
    whose insertion would leave more than that buffered after the drain
    attempt forces the flush: the sink receives every buffered chunk,
    starting with the gap marker of the hole the buffer was waiting at or
    with the segment it was holding back, and the buffer is released.
    Inside an [ingest], between the insert and the drain attempt, the
    buffer is over the ceiling by at most the one chunk just stored. *)
Theorem buffered_bytes_bounded :
  (forall start ops,
     (stream_bytes (snd (run ops (Live (fresh start))))
      <= max_buffered_bytes_per_stream cfg)%nat) /\
  (forall now e b,
     well_formed e = true ->
     (buffered_bytes (pending b) <= max_buffered_bytes_per_stream cfg)%nat ->
     (buffered_bytes (pending (insert now e b))
      <= max_buffered_bytes_per_stream cfg + MAX_CHUNK)%nat) /\
  (forall now e b out b1,
     well_formed e = true ->
     drain_ready now (insert now e b) = (out, b1) ->
     (max_buffered_bytes_per_stream cfg < buffered_bytes (pending b1))%nat ->
     ingest now e (Live b) = (out ++ fst (flush b1), Evicted) /\
     Permutation (emitted (fst (flush b1))) (pending b1) /\
     ((exists k' rest, fst (flush b1) = GapMarker (expected b1) k' :: rest /\
                       expected b1 < k' /\ rest <> [] /\ segment_first_at k' rest) \/
      (exists seg rest, fst (flush b1) = Segment seg :: rest /\
                        exists c, In c seg /\ ck_ts c = expected b1)) /\
     stream_bytes (snd (ingest now e (Live b))) = O).
Proof.
  split; [|split].
  - intros start ops. apply run_bounded. apply Nat.le_0_l.
  - intros now e b Hwf Hb. pose proof (insert_bytes now e b Hwf). lia.
  - intros now e b out b1 Hwf Hdrain Hmax.
    destruct (drain_with_ahead _ _ _ _ _ (held_from_ok _) Hdrain) as (Hwin & _).
    assert (Hne : pending b1 <> []).
    { intros Hnil. rewrite Hnil in Hmax. unfold buffered_bytes in Hmax.
      simpl in Hmax. lia. }
    assert (Hingest : ingest now e (Live b) = (out ++ fst (flush b1), Evicted)).
    { unfold Reassembly.ingest. rewrite Hwf, Hdrain.
      apply Nat.ltb_lt in Hmax. rewrite Hmax. reflexivity. }
    rewrite Hingest. repeat split.
    + apply flush_emits_all.
    + apply flush_progress; assumption.
Qed.


End Operations.

(** ** The payload hash of the concrete streams *)

Lemma number_hash_snoc (p : list Byte.byte) (x : Byte.byte) :
  number_hash (p ++ [x]) = 256 * number_hash p + N.of_nat (Byte.to_nat x).
Proof.
  unfold number_hash. rewrite fold_left_app. reflexivity.
Qed.

Lemma number_hash_positive (p : list Byte.byte) : 1 <= number_hash p.
Proof.
  induction p as [|x p IH] using rev_ind; [reflexivity|].
  rewrite number_hash_snoc. lia.
Qed.

(** [number_hash] tells any two payloads apart. *)
Lemma number_hash_injective (p q : list Byte.byte) :
  number_hash p = number_hash q -> p = q.
Proof.
  revert q. induction p as [|x p IH] using rev_ind; intros q Heq.
  - destruct q as [|y q _] using rev_ind; [reflexivity|].
    rewrite number_hash_snoc in Heq. pose proof (number_hash_positive q).
    change (number_hash []) with 1 in Heq. lia.
  - destruct q as [|y q _] using rev_ind.
    + rewrite number_hash_snoc in Heq. pose proof (number_hash_positive p).
      change (number_hash []) with 1 in Heq. lia.
    + rewrite !number_hash_snoc in Heq.
      pose proof (Byte.to_nat_bounded x). pose proof (Byte.to_nat_bounded y).
      assert (Hh : number_hash p = number_hash q) by lia.
      assert (Hx : Byte.to_nat x = Byte.to_nat y) by lia.
      rewrite (IH q Hh). f_equal. f_equal.
      pose proof (Byte.of_to_nat x) as Hox. pose proof (Byte.of_to_nat y) as Hoy.
      rewrite Hx in Hox. congruence.
Qed.

(** ** The properties on concrete streams *)

(** Scenario: A (t = 1) and B (t = 2) delivered in the order B, A reach
    the sink as one segment, without a gap. *)
Example scenario_reordered :
  sink_text (fst (run number_hash roomy
                    [Ingest 0 (text_at 2 " HTTP/1.1"); Ingest 0 (text_at 1 "GET /")]
                    (Live (fresh 1))))
  = [("GET / HTTP/1.1", false)].
Proof. vm_compute. reflexivity. Qed.

(** Scenario: chunks at t = 1 and t = 3, the chunk at t = 2 never
    delivered, gap-timeout 50: nothing but the first segment before the
    timeout, then the gap marker and the segment of t = 3. *)
Example scenario_gap :
  fst (run number_hash roomy
         [Ingest 0 (text_at 1 "aaa"); Ingest 0 (text_at 3 "ccc"); Drain 50]
         (Live (fresh 1)))
  = [Segment [ {| ck_event := text_at 1 "aaa"; ck_received := 0 |} ]] /\
  fst (run number_hash roomy
         [Ingest 0 (text_at 1 "aaa"); Ingest 0 (text_at 3 "ccc"); Drain 50; Drain 51]
         (Live (fresh 1)))
  = [Segment [ {| ck_event := text_at 1 "aaa"; ck_received := 0 |} ];
     GapMarker 2 3;
     Segment [ {| ck_event := text_at 3 "ccc"; ck_received := 0 |} ]].
Proof. split; vm_compute; reflexivity. Qed.

(** A hole behind a stored run gets its gap marker like a hole at the
    expected position: with the chunks of t = 3 and t = 5 stored and
    position 2 expected, both holes are marked; and a truncated chunk at
    t = 1 with the chunk of t = 3 is handed over with the marker of the
    hole between them. *)
Example scenario_gap_behind_a_run :
  map (fun o => match o with
                | Segment seg => inl (map ck_ts seg)
                | GapMarker a z => inr (a, z)
                end)
      (fst (run number_hash roomy
              [Ingest 0 (text_at 3 "ccc"); Ingest 0 (text_at 5 "eee"); Drain 51]
              (Live (fresh 2))))
  = [inr (2, 3); inl [3]; inr (4, 5); inl [5]] /\
  sink_text (fst (run number_hash roomy
                    [Ingest 0 (event_at 1 true (list_byte_of_string "aaa"));
                     Ingest 0 (text_at 3 "ccc"); Drain 51]
                    (Live (fresh 1))))
  = [("aaa", false); ("ccc", true)].
Proof. split; vm_compute; reflexivity. Qed.

(** Scenario: ten truncated chunks of 8192 bytes with contiguous
    timestamps reach the sink as one segment of 81920 bytes, without a
    gap, when the write ends with a chunk that is not truncated and also
    when the stream is closed. *)
Example scenario_truncated :
  sink_lengths (fst (run number_hash roomy
                       (map (fun t => Ingest 0 (event_at (N.of_nat t) true
                                                  (repeat Byte.x41 MAX_CHUNK)))
                            (seq 1 9)
                        ++ [Ingest 0 (event_at 10 false (repeat Byte.x41 MAX_CHUNK))])
                       (Live (fresh 1))))
  = [(81920, false)] /\
  sink_lengths (fst (run number_hash roomy
                       (map (fun t => Ingest 0 (event_at (N.of_nat t) true
                                                  (repeat Byte.x41 MAX_CHUNK)))
                            (seq 1 10)
                        ++ [Evict])
                       (Live (fresh 1))))
  = [(81920, false)].
Proof. split; vm_compute; reflexivity. Qed.

(** Evicting twice: the second eviction emits nothing. *)
Example scenario_evicted_twice :
  sink_text (fst (run number_hash roomy
                    [Ingest 0 (text_at 2 "late"); Evict; Evict] (Live (fresh 1))))
  = [("late", true)].
Proof. vm_compute. reflexivity. Qed.

(** Two chunks with the same timestamp reach the sink in arrival order,
    also when the first has been handed over before the second arrives;
    and a chunk whose timestamp runs behind one that was handed over is
    handed over in arrival order. *)
Example scenario_ties_in_arrival_order :
  sink_text (fst (run number_hash roomy
                    [Ingest 0 (text_at 1 "a"); Ingest 1 (text_at 1 "b"); Evict]
                    (Live (fresh 1))))
  = [("a", false); ("b", false)] /\
  sink_text (fst (run number_hash roomy
                    [Ingest 0 (text_at 2 "c"); Ingest 1 (text_at 2 "d");
                     Ingest 2 (text_at 1 "a")]
                    (Live (fresh 1))))
  = [("acd", false)] /\
  sink_text (fst (run number_hash roomy
                    [Ingest 0 (text_at 5 "first"); Ingest 1 (text_at 4 "second")]
                    (Live (fresh 5))))
  = [("first", false); ("second", false)].
Proof. repeat split; vm_compute; reflexivity. Qed.

(** A retransmitted chunk is dropped and counted, while the original is
    stored and also when it has been handed over. *)
Example scenario_retransmitted :
  sink_text (fst (run number_hash roomy
                    [Ingest 0 (text_at 2 "b"); Ingest 1 (text_at 2 "b");
                     Ingest 2 (text_at 1 "a"); Ingest 3 (text_at 1 "a");
                     Ingest 4 (text_at 2 "b"); Evict]
                    (Live (fresh 1))))
  = [("ab", false)] /\
  match snd (run number_hash roomy
               [Ingest 0 (text_at 2 "b"); Ingest 1 (text_at 2 "b");
                Ingest 2 (text_at 1 "a"); Ingest 3 (text_at 1 "a");
                Ingest 4 (text_at 2 "b")]
               (Live (fresh 1))) with
  | Live b => pending b = [] /\ dropped_duplicates b = 3%nat
  | Evicted => False
  end.
Proof. split; vm_compute; [reflexivity | split; reflexivity]. Qed.

(** ** C1 as stated *)


Lemma StronglySorted_app_inv {A : Type} (R : A -> A -> Prop) (l1 l2 : list A) (x y : A) :
  StronglySorted R (l1 ++ l2) -> In x l1 -> In y l2 -> R x y.
Proof.
  induction l1 as [|a l1 IH]; simpl; intros H Hx Hy; [destruct Hx|].
  inversion H as [|? ? Hrest Hall]; subst. destruct Hx as [-> | Hx].
  - rewrite Forall_forall in Hall. apply Hall. apply in_or_app. right. assumption.
  - apply IH; assumption.
Qed.

Section AnyEngine.

(** The order of these two chunks does not depend on how the engine is
    built.  Let [handed_over ops] be the chunks an engine has handed to
    the sink of one stream after the operations [ops]. *)
Variable handed_over : list op -> list chunk.

(** What the sink has consumed is gone: later operations only add to it. *)
Hypothesis forward_only :
  forall ops ops', exists more, handed_over (ops ++ ops') = handed_over ops ++ more.

(** Only chunks of events that have arrived are handed over. *)
Hypothesis arrived_first :
  forall ops c, In c (handed_over ops) -> In (Ingest (ck_received c) (ck_event c)) ops.

(** The drain attempt of [ingest] hands over the chunk at the expected
    position. *)
Hypothesis drained_on_ingest :
  In {| ck_event := text_at 5 "first"; ck_received := 0 |}
     (handed_over [Ingest 0 (text_at 5 "first")]).

(** Of a stream that is closed nothing but duplicates is dropped. *)
Hypothesis nothing_lost :
  In {| ck_event := text_at 4 "second"; ck_received := 1 |}
     (handed_over [Ingest 0 (text_at 5 "first"); Ingest 1 (text_at 4 "second"); Evict]).

Lemma no_engine_keeps_timestamp_order :
  ~ StronglySorted N.le
      (map ck_ts (handed_over [Ingest 0 (text_at 5 "first");
                               Ingest 1 (text_at 4 "second"); Evict])).
Proof.
  destruct (forward_only [Ingest 0 (text_at 5 "first")]
                         [Ingest 1 (text_at 4 "second"); Evict]) as [more Hmore].
  simpl in Hmore. intros Hsorted. pose proof nothing_lost as Hsecond.
  rewrite Hmore in Hsorted, Hsecond. rewrite map_app in Hsorted.
  apply in_app_or in Hsecond. destruct Hsecond as [Hsecond | Hsecond].
  - apply arrived_first in Hsecond. simpl in Hsecond.
    destruct Hsecond as [Habs | []]. discriminate.
  - assert (Hle : 5 <= 4).
    { apply (StronglySorted_app_inv N.le _ _ _ _ Hsorted).
      - apply (in_map ck_ts _ _ drained_on_ingest).
      - apply (in_map ck_ts _ _ Hsecond). }
    lia.
Qed.

End AnyEngine.

(** The model is such an engine: the four assumptions hold of it. *)
Lemma model_keeps_no_timestamp_order :
  ~ StronglySorted N.le
      (map ck_ts (emitted (fst (run number_hash roomy
                                  [Ingest 0 (text_at 5 "first");
                                   Ingest 1 (text_at 4 "second"); Evict]
                                  (Live (fresh 5)))))).
Proof.
  apply (no_engine_keeps_timestamp_order
           (fun ops => emitted (fst (run number_hash roomy ops (Live (fresh 5)))))).
  - intros ops ops'. rewrite run_app. simpl. rewrite emitted_app. eexists. reflexivity.
  - intros ops c Hc. apply run_emitted_from in Hc. destruct Hc as [[] | Hc]. assumption.
  - vm_compute. left. reflexivity.
  - vm_compute. right. left. reflexivity.
Qed.

(** ** The theorems at concrete streams *)



Lemma buffered_bytes_bounded_witness :
  ingest number_hash tight 0 (text_at 3 "cccccc") (Live (fresh 1)) =
    ([] ++ fst (flush number_hash
                  {| pending := [ {| ck_event := text_at 3 "cccccc"; ck_received := 0 |} ];
                     expected := 1;
                     delivered := [];
                     dropped_duplicates := 0 |}), Evicted).
Proof.
  apply (proj2 (proj2 (buffered_bytes_bounded number_hash tight))).
  - reflexivity.
  - reflexivity.
  - vm_compute. repeat constructor.
Defined.


End ReassemblyFacts.
